(** * ng-effects: effect-metadata aggregation and the render-completion observer

  A shallow embedding of
    - [exploreEffects] and [mergeOptions]   (internals/explore-effects)
    - [RenderFactoryObserver]               (libs/ng-effects/src/lib/providers.ts)
  together with the properties of these functions that the
  specification states. *)

From stdpp Require Import gmap strings list fin_maps.

(** ** JavaScript values and plain objects *)

Module JS.

Local Open Scope string_scope.

(** The values an option bag holds.  Numbers are integers here (the
    option bags of the library hold strings and booleans); [VRef] stands
    for any object or function, compared by identity. *)
Inductive value : Type :=
| VUndefined
| VNull
| VBool (b : bool)
| VNum (n : Z)
| VStr (s : string)
| VRef (r : positive).

#[export] Instance value_eq_dec : EqDecision value.
Proof. solve_decision. Defined.

(** A plain object: its own enumerable data properties. *)
Abbreviation obj := (gmap string value).

(** What a parameter that is meant to hold an object can be bound to. *)
Inductive jsarg : Type :=
| ArgUndefined
| ArgNull
| ArgObj (o : obj).

(** The outcome of a call: a returned value or a thrown [TypeError]. *)
Inductive result (A : Type) : Type :=
| Ok (a : A)
| TypeError.
Arguments Ok {A} a.
Arguments TypeError {A}.

(** [o.k]: reading a property that is not there gives [undefined]. *)
Definition get (o : obj) (k : string) : value := default VUndefined (o !! k).

(** [v === undefined] *)
Definition is_undefined (v : value) : bool :=
  match v with VUndefined => true | _ => false end.

(** [Boolean(v)] *)
Definition Boolean (v : value) : bool :=
  match v with
  | VUndefined | VNull => false
  | VBool b => b
  | VNum n => negb (n =? 0)%Z
  | VStr s => negb (String.eqb s "")
  | VRef _ => true
  end.

(** [a || b] *)
Definition or (a b : value) : value := if Boolean a then a else b.

(** One source of [Object.assign]: [null] and [undefined] sources are
    skipped, the properties of an object overwrite those of the target. *)
Definition assign1 (target : obj) (source : jsarg) : obj :=
  match source with
  | ArgObj o => o ∪ target
  | ArgUndefined | ArgNull => target
  end.

(** [Object.assign(target, ...sources)], sources applied left to right. *)
Definition Object_assign (target : obj) (sources : list jsarg) : obj :=
  foldl assign1 target sources.

End JS.

Import JS.

(** ** explore-effects *)

Module ExploreEffects.

Local Open Scope string_scope.

(** A component class ([Type<any>]): its identity and its [name]. *)
Record ClassType : Type := { type_id : positive; type_name : string }.

#[export] Instance ClassType_eq_dec : EqDecision ClassType.
Proof. solve_decision. Defined.

#[export] Instance ClassType_countable : Countable ClassType.
Proof.
  apply (inj_countable' (fun t => (type_id t, type_name t))
                        (fun p => {| type_id := p.1; type_name := p.2 |})).
  by intros [].
Defined.

(** The three argument decorators whose metadata is collected. *)
Inductive ArgKey : Type := State | Context | Observe.

(** [EffectMetadata]: one effect descriptor. *)
Record EffectMetadata : Type := {
  path : string;
  type : ClassType;
  name : string;
  options : obj;
  args : list value;
}.

(** What the decorators have recorded; [getMetadata] itself is not part
    of this module, so its answers are a parameter of the embedding.
    [effectDecls] is [getMetadata(Effect)], in iteration order: for each
    class the effects it declares and the options given to [@Effect].
    [argDecls key type name] is [getMetadata(key, type.prototype, name)]. *)
Record MetadataStore : Type := {
  effectDecls : list (ClassType * list (string * jsarg));
  argDecls : ArgKey → ClassType → string → value;
}.

(** An element met when iterating a value returned to the caller. *)
Inductive item : Type :=
| Entry (e : ClassType * list (string * jsarg))
| Descriptor (d : EffectMetadata).

(** [mergeOptions(defaults, options = {})] *)
Definition mergeOptions (defaults : jsarg) (options : jsarg) : result obj :=
  let options := match options with ArgUndefined => ArgObj ∅ | o => o end in
  let merged := Object_assign ∅ [defaults; options] in
  if is_undefined (get merged "markDirty") then
    match options with
    | ArgObj o =>
        if Boolean (or (get o "bind") (get o "assign"))
        then Ok (<["markDirty" := VBool true]> merged)
        else Ok merged
    | _ => TypeError
    end
  else Ok merged.

(** The body of the inner loop, for one declared effect. *)
Definition describe (store : MetadataStore) (defaults : jsarg)
    (ty : ClassType) (nm : string) (locals : jsarg) : result EffectMetadata :=
  match mergeOptions defaults locals with
  | Ok opts =>
      Ok {| path := type_name ty ++ " -> " ++ nm;
            type := ty;
            name := nm;
            options := opts;
            args := (fun key => argDecls store key ty nm) <$> [State; Context; Observe] |}
  | TypeError => TypeError
  end.

(** The inner loop [for (const [name, locals] of effects)]: the set
    [effect] as filled so far, and whether the loop was left by a throw. *)
Fixpoint addEffects (store : MetadataStore) (defaults : jsarg) (ty : ClassType)
    (effects : list (string * jsarg)) (effect : list EffectMetadata)
    : list EffectMetadata * bool :=
  match effects with
  | [] => (effect, false)
  | (nm, locals) :: rest =>
      match describe store defaults ty nm locals with
      | Ok d => addEffects store defaults ty rest (effect ++ [d])
      | TypeError => (effect, true)
      end
  end.

(** The outer loop over [getMetadata(Effect)], threading the module-level
    map [effectMetadata].  The fresh set is registered before it is
    filled, so a throw leaves the partly filled set in the map. *)
Fixpoint exploreTypes (store : MetadataStore) (defaults : jsarg)
    (decls : list (ClassType * list (string * jsarg)))
    (effectMetadata : gmap ClassType (list EffectMetadata))
    : gmap ClassType (list EffectMetadata) * bool :=
  match decls with
  | [] => (effectMetadata, false)
  | (ty, effects) :: rest =>
      if decide (is_Some (effectMetadata !! ty))
      then exploreTypes store defaults rest effectMetadata
      else
        let '(effect, threw) := addEffects store defaults ty effects [] in
        let effectMetadata := <[ty := effect]> effectMetadata in
        if threw then (effectMetadata, true)
        else exploreTypes store defaults rest effectMetadata
  end.

(** [exploreEffects(defaults)]: the registry after the call and what the
    call returns, which is the outer [metadata], the value of
    [getMetadata(Effect)]. *)
Definition exploreEffects (store : MetadataStore) (defaults : jsarg)
    (effectMetadata : gmap ClassType (list EffectMetadata))
    : gmap ClassType (list EffectMetadata) * result (list item) :=
  let metadata := effectDecls store in
  let '(effectMetadata, threw) := exploreTypes store defaults metadata effectMetadata in
  (effectMetadata, if threw then TypeError else Ok (Entry <$> metadata)).

(** A store in which one class declares one bound effect. *)
Definition AppComponent : ClassType := {| type_id := 1; type_name := "AppComponent" |}.

Definition countStore : MetadataStore :=
  {| effectDecls := [(AppComponent, [("setCount", ArgObj {["bind" := VStr "count"]})])];
     argDecls := λ _ _ _, VUndefined |}.

Definition setCount : EffectMetadata :=
  {| path := "AppComponent -> setCount";
     type := AppComponent;
     name := "setCount";
     options := {["bind" := VStr "count"; "markDirty" := VBool true]};
     args := [VUndefined; VUndefined; VUndefined] |}.

End ExploreEffects.

(** ** providers.ts: the render-completion observer

    [RenderFactoryObserver] builds on rxjs, whose operators are modelled
    here as the library (version 6) implements them:
    - [Subject]: [next] hands the value to each observer of a copy of
      [observers] unless the subject is stopped; [complete] stops the
      subject, completes its observers and empties [observers]; a
      subscription to a stopped subject is completed at once and is not
      pushed on [observers];
    - [filter] drops the values for which the predicate is false;
    - [take(1)] passes the first value on, then completes and
      unsubscribes from its source;
    - [share()] multicasts through an inner subject that is created and
      connected to the source by the first subscriber, and is dropped
      (so that a later subscriber connects anew) when the source
      completes or the last subscriber leaves.
    The callbacks of the subscribers and the original hook act on the
    rendering engine only: they do not call back into the observer. *)

Module Providers.

(** How a call of a hook ends: it returns or it throws; either way it may
    have changed the state it ran on. *)
Inductive completion (A : Type) : Type :=
| Normal (a : A)
| Thrown (a : A).
Arguments Normal {A} a.
Arguments Thrown {A} a.

Definition outcome {A : Type} (c : completion A) : A :=
  match c with Normal a | Thrown a => a end.

Definition returned {A : Type} (c : completion A) : bool :=
  match c with Normal _ => true | Thrown _ => false end.

(** What can be observed of a run: the calls of the original hook, the
    calls of [subject.next()], and what the subscribers of the observables
    returned by [whenRendered] receive. *)
Inductive Event : Type :=
| OrigEnd
| SubjectNext
| Notify (subscriber : nat)
| Completed (subscriber : nat).

#[export] Instance Event_eq_dec : EqDecision Event.
Proof. solve_decision. Defined.

Section Model.

(** [Host] is the state of the rendering engine (the renderer factory and
    the DOM it renders into); [Element] and [Node] are DOM nodes. *)
Context {Host Element Node : Type}.

(** [RendererFactory2.end], when installed. *)
Definition EndFn : Type := Host → completion Host.

(** [noop] of ./utils *)
Definition noop : EndFn := Normal.

(** [RendererFactory2]: the optional [end] hook. *)
Record RendererFactory2 : Type := { rf_end : option EndFn }.

(** [Renderer2]: the one method used here. [None] is [null]. *)
Record Renderer2 : Type := { parentNode : Host → Element → option Node }.

(** The state of one [RenderFactoryObserver] and of what it is wired to.
    - [origEndFn] is the variable captured by the installed hook;
    - [observers] is [subject.observers], the array that the hook's
      [observers] aliases: the observables returned by [whenRendered]
      that are connected to the subject, in the order of connection;
    - [isStopped] is the subject's flag, set by [complete()];
    - [rendered] lists the observables returned by [whenRendered] so far,
      an observable being named by its position;
    - [inner] gives, for each connected observable, the observers of the
      subject that [share()] multicasts through, in subscription order. *)
Record World : Type := {
  host : Host;
  origEndFn : EndFn;
  observers : list nat;
  isStopped : bool;
  rendered : list (Element * Renderer2);
  inner : gmap nat (list nat);
  nextSubscriber : nat;
  log : list Event;
}.

Definition set_host (h : Host) (w : World) : World :=
  {| host := h; origEndFn := origEndFn w; observers := observers w;
     isStopped := isStopped w; rendered := rendered w; inner := inner w;
     nextSubscriber := nextSubscriber w; log := log w |}.

Definition set_observers (l : list nat) (w : World) : World :=
  {| host := host w; origEndFn := origEndFn w; observers := l;
     isStopped := isStopped w; rendered := rendered w; inner := inner w;
     nextSubscriber := nextSubscriber w; log := log w |}.

Definition set_isStopped (b : bool) (w : World) : World :=
  {| host := host w; origEndFn := origEndFn w; observers := observers w;
     isStopped := b; rendered := rendered w; inner := inner w;
     nextSubscriber := nextSubscriber w; log := log w |}.

Definition set_rendered (l : list (Element * Renderer2)) (w : World) : World :=
  {| host := host w; origEndFn := origEndFn w; observers := observers w;
     isStopped := isStopped w; rendered := l; inner := inner w;
     nextSubscriber := nextSubscriber w; log := log w |}.

Definition set_inner (m : gmap nat (list nat)) (w : World) : World :=
  {| host := host w; origEndFn := origEndFn w; observers := observers w;
     isStopped := isStopped w; rendered := rendered w; inner := m;
     nextSubscriber := nextSubscriber w; log := log w |}.

Definition set_nextSubscriber (n : nat) (w : World) : World :=
  {| host := host w; origEndFn := origEndFn w; observers := observers w;
     isStopped := isStopped w; rendered := rendered w; inner := inner w;
     nextSubscriber := n; log := log w |}.

Definition emit (es : list Event) (w : World) : World :=
  {| host := host w; origEndFn := origEndFn w; observers := observers w;
     isStopped := isStopped w; rendered := rendered w; inner := inner w;
     nextSubscriber := nextSubscriber w; log := log w ++ es |}.

(** [array.splice(array.indexOf(x), 1)] on an array without repetitions *)
Definition remove (x : nat) (l : list nat) : list nat :=
  filter (λ y, y ≠ x) l.

(** [new RenderFactoryObserver(rendererFactory)], the engine being in
    state [h]. The installed hook is [installedEnd] below. *)
Definition constructor (rendererFactory : RendererFactory2) (h : Host) : World :=
  {| host := h;
     origEndFn := default noop (rf_end rendererFactory);
     observers := [];
     isStopped := false;
     rendered := [];
     inner := ∅;
     nextSubscriber := 0;
     log := [] |}.

(** [whenRendered(element, renderer)]: a new cold observable
    [observer.pipe(filter(..), take(1), share())]; nothing is subscribed yet. *)
Definition whenRendered (element : Element) (renderer : Renderer2) (w : World)
    : nat * World :=
  (length (rendered w), set_rendered (rendered w ++ [(element, renderer)]) w).

(** Subscribing to the observable [p]. The subscriber gets the next free
    name. The first subscriber makes [share()] create its inner subject
    and connect it: the source subject completes the connection at once
    when it is stopped, and pushes it on [observers] otherwise. *)
Definition subscribe (p : nat) (w : World) : World :=
  match rendered w !! p with
  | None => w
  | Some _ =>
      let s := nextSubscriber w in
      let w := set_nextSubscriber (S s) w in
      match inner w !! p with
      | Some subs => set_inner (<[p := subs ++ [s]]> (inner w)) w
      | None =>
          if isStopped w then emit [Completed s] w
          else set_observers (observers w ++ [p]) (set_inner (<[p := [s]]> (inner w)) w)
      end
  end.

(** Unsubscribing [s] from the observable [p]; when the last subscriber
    leaves, [share()] disconnects from the source subject. *)
Definition unsubscribe (p s : nat) (w : World) : World :=
  match inner w !! p with
  | None => w
  | Some subs =>
      if decide (s ∈ subs) then
        match remove s subs with
        | [] => set_observers (remove p (observers w)) (set_inner (delete p (inner w)) w)
        | subs' => set_inner (<[p := subs']> (inner w)) w
        end
      else w
  end.

(** [filter(() => renderer.parentNode(element) !== null)] *)
Definition attached (h : Host) (er : Element * Renderer2) : bool :=
  match parentNode er.2 h er.1 with
  | Some _ => true
  | None => false
  end.

(** The source subject hands a value to the connection of observable [p]:
    when the filter lets it through, [take(1)] passes it on, completes
    and unsubscribes from the source; the inner subject hands the value,
    then the completion, to each of its observers. *)
Definition deliver_next (w : World) (p : nat) : World :=
  match rendered w !! p, inner w !! p with
  | Some er, Some subs =>
      if attached (host w) er then
        emit ((Notify <$> subs) ++ (Completed <$> subs))
          (set_observers (remove p (observers w))
             (set_inner (delete p (inner w)) w))
      else w
  | _, _ => w
  end.

(** The source subject completes the connection of observable [p]. *)
Definition deliver_complete (w : World) (p : nat) : World :=
  match inner w !! p with
  | Some subs => emit (Completed <$> subs) (set_inner (delete p (inner w)) w)
  | None => w
  end.

(** [subject.next()]: nothing once stopped, otherwise each observer of a
    copy of [observers] is handed the value. *)
Definition subject_next (w : World) : World :=
  let w := emit [SubjectNext] w in
  if isStopped w then w
  else foldl deliver_next w (observers w).

(** [subject.complete()] *)
Definition subject_complete (w : World) : World :=
  let w' := foldl deliver_complete (set_isStopped true w) (observers w) in
  set_observers [] w'.

(** The hook that the constructor installs as [rendererFactory.end]. *)
Definition installedEnd (w : World) : completion World :=
  let w := emit [OrigEnd] w in
  match origEndFn w (host w) with
  | Thrown h => Thrown (set_host h w)
  | Normal h =>
      let w := set_host h w in
      if 0 <? length (observers w) then Normal (subject_next w) else Normal w
  end.

(** [ngOnDestroy()] *)
Definition ngOnDestroy (w : World) : World := subject_complete w.

(** What happens to an observer over time. [OpHost] is any other activity
    of the engine (rendering, attaching and detaching elements). *)
Inductive Op : Type :=
| OpWhenRendered (element : Element) (renderer : Renderer2)
| OpSubscribe (p : nat)
| OpUnsubscribe (p s : nat)
| OpEnd
| OpDestroy
| OpHost (g : Host → Host).

Definition step (w : World) (op : Op) : World :=
  match op with
  | OpWhenRendered el r => (whenRendered el r w).2
  | OpSubscribe p => subscribe p w
  | OpUnsubscribe p s => unsubscribe p s w
  | OpEnd => outcome (installedEnd w)
  | OpDestroy => ngOnDestroy w
  | OpHost g => set_host (g (host w)) w
  end.

Definition run (w : World) (ops : list Op) : World := foldl step w ops.

(** The subscribers that have been notified, in order. *)
Definition notified (l : list Event) : list nat :=
  omap (λ e, match e with Notify s => Some s | _ => None end) l.

(** How many notifications subscriber [s] has received. *)
Definition notifications (s : nat) (l : list Event) : nat :=
  length (filter (λ x, x = s) (notified l)).


(** The events that notify nobody: calls of the original hook and
    completions. *)
Definition quiet (e : Event) : bool :=
  match e with
  | OrigEnd | Completed _ => true
  | SubjectNext | Notify _ => false
  end.

(** The events that a subscriber receives. *)
Definition delivery (e : Event) : bool :=
  match e with
  | Notify _ | Completed _ => true
  | OrigEnd | SubjectNext => false
  end.

(** A completion seen through a projection of the state. *)
Definition cmap {A B : Type} (f : A → B) (c : completion A) : completion B :=
  match c with
  | Normal a => Normal (f a)
  | Thrown a => Thrown (f a)
  end.

(** The events that [w'] has logged beyond those of [w]. *)
Definition since (w w' : World) : list Event :=
  drop (length (log w)) (log w').

(** What holds of every state that the operations reach from a freshly
    constructed observer: the subscribers of connected observables are
    known, pairwise distinct and not yet notified; nobody was notified
    twice; a connected observable is among [observers] and the subject
    is not stopped. *)
Record Inv (w : World) : Prop := {
  inv_fresh : ∀ p subs s,
    inner w !! p = Some subs → s ∈ subs → s < nextSubscriber w;
  inv_unnotified : ∀ p subs s,
    inner w !! p = Some subs → s ∈ subs → s ∉ notified (log w);
  inv_nodup : ∀ p subs, inner w !! p = Some subs → NoDup subs;
  inv_disjoint : ∀ p q sp sq s,
    inner w !! p = Some sp → inner w !! q = Some sq → s ∈ sp → s ∈ sq → p = q;
  inv_once : NoDup (notified (log w));
  inv_notified_old : ∀ s, s ∈ notified (log w) → s < nextSubscriber w;
  inv_connected : ∀ p, is_Some (inner w !! p) → p ∈ observers w ∧ isStopped w = false;
}.

End Model.

Arguments World : clear implicits.
Arguments RendererFactory2 : clear implicits.
Arguments Renderer2 : clear implicits.
Arguments Op : clear implicits.
Arguments EndFn : clear implicits.

(** A small engine for examples: its state says whether the one element
    is attached; there is one element and one node. *)
Definition domRenderer : Renderer2 bool unit unit :=
  {| parentNode := λ (attachedNow : bool) (_ : unit), if attachedNow then Some () else None |}.

(** A factory without an [end] hook. *)
Definition bareFactory : RendererFactory2 bool := {| rf_end := None |}.

(** An observable is obtained, two subscribers subscribe to it, then the
    element is attached. *)
Definition twoSubscribers : list (Op bool unit unit) :=
  [OpWhenRendered () domRenderer; OpSubscribe 0; OpSubscribe 0; OpHost (λ _, true)].


End Providers.

(** ** providers.ts: the provider list built by [effects] *)

Module ProvidersConfig.

Import ExploreEffects.

(** The injection tokens of ./constants and the abstract classes used as
    tokens. *)
Inductive Token : Type :=
| EFFECTS
| HOST_INITIALIZER
| STRICT_MODE
| EffectOptions
| Connect.

(** The library's own classes and functions that the providers name. *)
Inductive Service : Type :=
| injectAll
| ConnectFactory
| Effects
| DestroyObserver.

(** What a [useValue] holds in this file. *)
Inductive ProvidedValue : Type :=
| ValOptions (effectOptions : jsarg)
| ValService (s : Service)
| ValBool (b : bool).

(** The [types] argument: left out, one class, or an array of classes. *)
Inductive TypesArg : Type :=
| TypesUndefined
| OneType (t : ClassType)
| ManyTypes (ts : list ClassType).

(** The shapes of provider that occur in the returned array. *)
Inductive Provider : Type :=
| FactoryProvider (provide : Token) (deps : list ClassType) (useFactory : Service)
| ValueProvider (provide : Token) (useValue : ProvidedValue) (multi : option bool)
| ClassProvider (provide : Token) (useClass : Service)
| ServiceProvider (s : Service)
| ServiceArray (ss : list Service)
| TypeProvider (t : ClassType)
| TypeArray (ts : list ClassType).

(** [[].concat(types)]: an array argument is spread, anything else is
    appended as one element. *)
Definition concat_types (types : list ClassType + ClassType) : list ClassType :=
  match types with
  | inl ts => ts
  | inr t => [t]
  end.

(** [effects(types = [], effectOptions)] *)
Definition effects (types : TypesArg) (effectOptions : jsarg) : list Provider :=
  let types : list ClassType + ClassType :=
    match types with
    | TypesUndefined => inl []
    | OneType t => inr t
    | ManyTypes ts => inl ts
    end in
  [ FactoryProvider EFFECTS (concat_types types) injectAll;
    ValueProvider EffectOptions (ValOptions effectOptions) None;
    ClassProvider Connect ConnectFactory;
    ValueProvider HOST_INITIALIZER (ValService Effects) (Some true);
    ServiceProvider DestroyObserver;
    ServiceArray [Effects];
    match types with
    | inl ts => TypeArray ts
    | inr t => TypeProvider t
    end ].

(** [HOST_EFFECTS] *)
Definition HOST_EFFECTS : list Provider := effects TypesUndefined ArgUndefined.

(** [USE_STRICT_EFFECTS] *)
Definition USE_STRICT_EFFECTS : Provider :=
  ValueProvider STRICT_MODE (ValBool true) None.

(** The user classes that a provider array provides, nested arrays
    flattened, in order. *)
Definition providedTypes (ps : list Provider) : list ClassType :=
  ps ≫= λ p, match p with
             | TypeProvider t => [t]
             | TypeArray ts => ts
             | _ => []
             end.

(** The classes that the factories of a provider array ask the injector
    for. *)
Definition requestedTypes (ps : list Provider) : list ClassType :=
  ps ≫= λ p, match p with
             | FactoryProvider _ deps _ => deps
             | _ => []
             end.

(** The options that a provider array registers under [EffectOptions]. *)
Definition providedOptions (ps : list Provider) : list jsarg :=
  ps ≫= λ p, match p with
             | ValueProvider EffectOptions (ValOptions o) _ => [o]
             | _ => []
             end.

End ProvidersConfig.

(** ** The render-completion observer: how the subject and the shared
       observables are wired *)

Module Wiring.

Import Providers.

Section Wiring.

Context {Host Element Node : Type}.

(** The wiring of the reachable states: [observers] lists each connected
    observable once; a connected observable has a subscriber and was
    returned by [whenRendered]; a stopped subject has no observer. *)
Record Wired (w : World Host Element Node) : Prop := {
  wired_nodup : NoDup (observers w);
  wired_connected : ∀ p, p ∈ observers w ↔ is_Some (inner w !! p);
  wired_nonempty : ∀ p subs, inner w !! p = Some subs → subs ≠ [];
  wired_known : ∀ p, is_Some (inner w !! p) → p < length (rendered w);
  wired_stopped : isStopped w = true → observers w = [];
}.

(** Subscriber [s] has been given its name, is subscribed nowhere and
    has not been notified. *)
Definition dormant (s : nat) (w : World Host Element Node) : Prop :=
  s < nextSubscriber w ∧
  (s ∉ notified (log w)) ∧
  ∀ p subs, inner w !! p = Some subs → s ∉ subs.

(** How often a run calls the installed hook. *)
Fixpoint endCalls (ops : list (Op Host Element Node)) : nat :=
  match ops with
  | [] => 0
  | OpEnd :: ops => S (endCalls ops)
  | _ :: ops => endCalls ops
  end.

(** How often the original hook has been called. *)
Definition origEndCalls (l : list Event) : nat :=
  length (filter (λ e, e = OrigEnd) l).

End Wiring.

End Wiring.

(** * Properties *)

(** ** mergeOptions *)

Module MergeOptionsSpec.

Import ExploreEffects.
Local Open Scope string_scope.

(** [Object.assign({}, defaults, options)] for two objects: the entries of
    [options] laid over those of [defaults]. *)
Lemma Object_assign_two (defaults options : obj) :
  Object_assign ∅ [ArgObj defaults; ArgObj options] = options ∪ defaults.
Proof.
  unfold Object_assign; simpl. by rewrite (right_id_L ∅ (∪)).
Qed.

Lemma get_union (o1 o2 : obj) (k : string) :
  get (o1 ∪ o2) k = match o1 !! k with Some v => v | None => get o2 k end.
Proof.
  unfold get. rewrite lookup_union.
  destruct (o1 !! k), (o2 !! k); done.
Qed.

Lemma get_insert (o : obj) (k k' : string) (v : value) :
  get (<[k := v]> o) k' = if decide (k = k') then v else get o k'.
Proof.
  unfold get. rewrite lookup_insert. by case_decide.
Qed.

(** With two objects the call always returns; this is what it returns. *)
Lemma mergeOptions_objects (defaults options : obj) :
  mergeOptions (ArgObj defaults) (ArgObj options) =
    Ok (if is_undefined (get (options ∪ defaults) "markDirty")
           && Boolean (or (get options "bind") (get options "assign"))
        then <["markDirty" := VBool true]> (options ∪ defaults)
        else options ∪ defaults).
Proof.
  unfold mergeOptions. rewrite Object_assign_two.
  destruct (is_undefined _); simpl; [|done].
  by destruct (Boolean _).
Qed.

(** C1, as the code has it: the merged [markDirty] is [true] exactly when
    the [bind] or [assign] value of the override is truthy and [markDirty]
    reads [undefined] once the override is laid over the defaults; in
    every other case it is the override's entry when the override has
    one, and what the defaults give otherwise. *)
Theorem mergeOptions_markDirty (defaults override : obj) :
  ∃ merged,
    mergeOptions (ArgObj defaults) (ArgObj override) = Ok merged ∧
    get merged "markDirty" =
      let specified :=
        match override !! "markDirty" with
        | Some v => v
        | None => get defaults "markDirty"
        end in
      if is_undefined specified
         && Boolean (or (get override "bind") (get override "assign"))
      then VBool true
      else specified.
Proof.
  eexists; split; [apply mergeOptions_objects|].
  rewrite get_union. simpl.
  destruct (_ && _); [|by rewrite get_union].
  by rewrite get_insert, decide_True.
Qed.

(** C1, as stated, fails: an override that contains an [assign] entry
    whose value is [false], with [markDirty] absent from both sides, is
    merged without [markDirty] becoming [true]. *)
Lemma mergeOptions_assign_false_leaves_markDirty_undefined :
  is_Some (({["assign" := VBool false]} : obj) !! "assign") ∧
  (∅ : obj) !! "markDirty" = None ∧
  ({["assign" := VBool false]} : obj) !! "markDirty" = None ∧
  mergeOptions (ArgObj ∅) (ArgObj {["assign" := VBool false]})
    = Ok {["assign" := VBool false]} ∧
  get ({["assign" := VBool false]} : obj) "markDirty" = VUndefined ∧
  get ({["assign" := VBool false]} : obj) "markDirty" ≠ VBool true.
Proof.
  split; [by eexists|]. repeat split; done.
Qed.

(** C2, as the code has it: a key present in the override keeps the
    override's value in the merged result whatever the defaults say, with
    one exception: a [markDirty] entry whose value is [undefined] becomes
    [true] when the override's [bind] or [assign] value is truthy. *)
Theorem mergeOptions_override_wins (defaults override : obj) (k : string) (v : value) :
  override !! k = Some v →
  ∃ merged,
    mergeOptions (ArgObj defaults) (ArgObj override) = Ok merged ∧
    merged !! k =
      Some (if bool_decide (k = "markDirty") && is_undefined v
               && Boolean (or (get override "bind") (get override "assign"))
            then VBool true
            else v).
Proof.
  intros Hk.
  eexists; split; [apply mergeOptions_objects|].
  rewrite get_union.
  destruct (Boolean _) eqn:Hb; rewrite ?andb_false_r, ?andb_true_r.
  2:{ by rewrite lookup_union, Hk, union_Some_l. }
  destruct (decide (k = "markDirty")) as [->|Hne].
  - rewrite Hk, bool_decide_eq_true_2 by done. simpl.
    destruct (is_undefined v).
    + by rewrite lookup_insert_eq.
    + by rewrite lookup_union, Hk, union_Some_l.
  - rewrite bool_decide_eq_false_2 by done. simpl.
    destruct (is_undefined _).
    + by rewrite lookup_insert_ne, lookup_union, Hk, union_Some_l.
    + by rewrite lookup_union, Hk, union_Some_l.
Qed.

Lemma mergeOptions_override_wins_witness :
  ∃ merged,
    mergeOptions (ArgObj {["whenRendered" := VBool false]})
                 (ArgObj {["whenRendered" := VBool true]}) = Ok merged ∧
    merged !! "whenRendered" = Some (VBool true).
Proof.
  apply (mergeOptions_override_wins
           {["whenRendered" := VBool false]} {["whenRendered" := VBool true]}
           "whenRendered" (VBool true)).
  reflexivity.
Defined.

(** C2, as stated, fails: the override has an explicit [markDirty] entry,
    [undefined], next to a binding target, and the merged [markDirty] is
    [true], which is neither the override's value nor the defaults'. *)
Lemma mergeOptions_explicit_undefined_markDirty_replaced :
  ({["bind" := VStr "count"; "markDirty" := VUndefined]} : obj) !! "markDirty"
    = Some VUndefined ∧
  mergeOptions (ArgObj {["markDirty" := VBool false]})
               (ArgObj {["bind" := VStr "count"; "markDirty" := VUndefined]})
    = Ok {["bind" := VStr "count"; "markDirty" := VBool true]} ∧
  ({["bind" := VStr "count"; "markDirty" := VBool true]} : obj) !! "markDirty"
    ≠ Some VUndefined.
Proof.
  split; [done|]. split; [|done].
  vm_compute. reflexivity.
Qed.

(** C9: with the per-effect options absent, or empty, the call returns,
    and what it returns is the defaults, entry for entry. *)
Theorem mergeOptions_absent_options (defaults : obj) :
  mergeOptions (ArgObj defaults) ArgUndefined = Ok defaults ∧
  mergeOptions (ArgObj defaults) (ArgObj ∅) = Ok defaults.
Proof.
  assert (mergeOptions (ArgObj defaults) (ArgObj ∅) = Ok defaults) as H.
  { rewrite mergeOptions_objects.
    rewrite (left_id_L ∅ (∪)). unfold or, get at 2 3.
    rewrite !lookup_empty. simpl. by rewrite andb_false_r. }
  split; [|done]. exact H.
Qed.

End MergeOptionsSpec.

(** ** exploreEffects *)

Module ExploreEffectsSpec.

Import ExploreEffects.
Local Open Scope string_scope.

Section Registry.

Context (store : MetadataStore) (defaults : jsarg).

(** The outer loop never touches the entry of a class that is registered
    when the loop reaches it. *)
Lemma exploreTypes_keeps decls (registry : gmap ClassType (list EffectMetadata)) ty cached :
  registry !! ty = Some cached →
  (exploreTypes store defaults decls registry).1 !! ty = Some cached.
Proof.
  revert registry. induction decls as [|[ty' effects] decls IH]; intros registry Hty; [done|].
  simpl. case_decide as Hseen; [by apply IH|].
  assert (ty' ≠ ty) as Hne.
  { intros ->. apply Hseen. by eexists. }
  destruct (addEffects store defaults ty' effects []) as [effect threw].
  destruct threw; simpl.
  - by rewrite lookup_insert_ne.
  - apply IH. by rewrite lookup_insert_ne.
Qed.

(** A class registered by the loop stays registered. *)
Lemma exploreTypes_registers decls (registry : gmap ClassType (list EffectMetadata)) ty effects :
  (exploreTypes store defaults decls registry).2 = false →
  (ty, effects) ∈ decls →
  is_Some ((exploreTypes store defaults decls registry).1 !! ty).
Proof.
  revert registry. induction decls as [|[ty' effects'] decls IH]; intros registry Hok Hin.
  { by apply elem_of_nil in Hin. }
  simpl in *. apply elem_of_cons in Hin as [Heq|Hin].
  - inversion Heq; subst ty' effects'; clear Heq.
    case_decide as Hseen.
    + destruct Hseen as [cached Hc]. rewrite (exploreTypes_keeps _ _ _ _ Hc). by eexists.
    + destruct (addEffects store defaults ty effects []) as [effect threw].
      destruct threw; [done|].
      erewrite exploreTypes_keeps; [by eexists|]. apply lookup_insert_eq.
  - case_decide as Hseen; [by apply IH|].
    destruct (addEffects store defaults ty' effects' []) as [effect threw].
    destruct threw; [done|]. by apply IH.
Qed.

End Registry.

Lemma exploreEffects_registry (store : MetadataStore) (defaults : jsarg)
    (effectMetadata : gmap ClassType (list EffectMetadata)) :
  (exploreEffects store defaults effectMetadata).1
    = (exploreTypes store defaults (effectDecls store) effectMetadata).1.
Proof. unfold exploreEffects. by destruct (exploreTypes _ _ _ _). Qed.

(** C3: a class that is in the registry when [exploreEffects] is called
    keeps its cached descriptors, whatever the defaults (and whatever the
    decorators have recorded) at this call. *)
Theorem exploreEffects_keeps_cached (store : MetadataStore) (defaults : jsarg)
    (effectMetadata : gmap ClassType (list EffectMetadata))
    (ty : ClassType) (cached : list EffectMetadata) :
  effectMetadata !! ty = Some cached →
  (exploreEffects store defaults effectMetadata).1 !! ty = Some cached.
Proof.
  intros Hty. rewrite exploreEffects_registry. by apply exploreTypes_keeps.
Qed.

(** The first merge wins: after a call that returned, a second call with
    other defaults changes nothing for the classes declared at the first. *)
Corollary exploreEffects_first_merge_wins (store : MetadataStore) (d1 d2 : jsarg)
    (effectMetadata : gmap ClassType (list EffectMetadata)) ty effects seq :
  (ty, effects) ∈ effectDecls store →
  (exploreEffects store d1 effectMetadata).2 = Ok seq →
  (exploreEffects store d2 (exploreEffects store d1 effectMetadata).1).1 !! ty
    = (exploreEffects store d1 effectMetadata).1 !! ty ∧
  is_Some ((exploreEffects store d1 effectMetadata).1 !! ty).
Proof.
  intros Hin Hret.
  assert (is_Some ((exploreEffects store d1 effectMetadata).1 !! ty)) as [cached Hc].
  { unfold exploreEffects in *.
    pose proof (exploreTypes_registers store d1 (effectDecls store) effectMetadata ty effects) as H.
    destruct (exploreTypes _ _ _ _) as [r threw]; simpl in *.
    destruct threw; [done|]. by apply H. }
  split; [|by eexists].
  rewrite Hc, exploreEffects_registry. by apply exploreTypes_keeps.
Qed.

Lemma exploreEffects_keeps_cached_witness :
  (exploreEffects countStore (ArgObj {["markDirty" := VBool false]})
     {[AppComponent := [setCount]]}).1 !! AppComponent = Some [setCount].
Proof.
  apply (exploreEffects_keeps_cached countStore (ArgObj {["markDirty" := VBool false]})
           {[AppComponent := [setCount]]} AppComponent [setCount]).
  reflexivity.
Defined.

(** What [exploreEffects] returns holds no effect descriptor: its elements
    are the entries of [getMetadata(Effect)]. *)
Lemma exploreEffects_returns_entries (store : MetadataStore) (defaults : jsarg)
    (effectMetadata : gmap ClassType (list EffectMetadata)) seq :
  (exploreEffects store defaults effectMetadata).2 = Ok seq →
  seq = Entry <$> effectDecls store.
Proof.
  unfold exploreEffects. destruct (exploreTypes _ _ _ _) as [r threw]; simpl.
  destruct threw; [done|]. by intros [= <-].
Qed.

(** C4 at this store, starting from the empty registry: the call itself
    computes the descriptor of [setCount] and caches it; what it returns
    is the one entry of [getMetadata(Effect)] and holds no descriptor; a
    second call returns that entry again. *)
Theorem exploreEffects_returns_declarations :
  (exploreEffects countStore ArgUndefined ∅).1 = {[AppComponent := [setCount]]} ∧
  (exploreEffects countStore ArgUndefined ∅).2
    = Ok [Entry (AppComponent, [("setCount", ArgObj {["bind" := VStr "count"]})])] ∧
  (Descriptor setCount ∉
    [Entry (AppComponent, [("setCount", ArgObj {["bind" := VStr "count"]})])]) ∧
  (exploreEffects countStore ArgUndefined {[AppComponent := [setCount]]}).2
    = Ok [Entry (AppComponent, [("setCount", ArgObj {["bind" := VStr "count"]})])].
Proof.
  split; [vm_compute; reflexivity|].
  split; [vm_compute; reflexivity|].
  split; [|vm_compute; reflexivity].
  intros Hin. apply list_elem_of_singleton in Hin. discriminate.
Qed.

End ExploreEffectsSpec.

(** ** RenderFactoryObserver *)

Module ProvidersSpec.

Import Providers.

Section Observer.

Context {Host Element Node : Type}.

Implicit Types (w : World Host Element Node) (p s : nat) (subs : list nat).
Implicit Types (ops : list (Op Host Element Node)).

(** *** Reading the log *)

Lemma notified_app (l1 l2 : list Event) :
  notified (l1 ++ l2) = notified l1 ++ notified l2.
Proof. apply omap_app. Qed.

Lemma notified_Notify subs : notified (Notify <$> subs) = subs.
Proof. induction subs as [|s subs IH]; [done|]. simpl. by f_equal. Qed.

Lemma notified_Completed subs : notified (Completed <$> subs) = [].
Proof. by induction subs. Qed.

Lemma elem_of_notified (l : list Event) s : s ∈ notified l ↔ Notify s ∈ l.
Proof.
  unfold notified. rewrite list_elem_of_omap. split.
  - intros (e & He & Hs). destruct e; simplify_eq. done.
  - intros H. by exists (Notify s).
Qed.

Lemma notifications_NoDup (l : list Event) s :
  NoDup (notified l) → notifications s l ≤ 1.
Proof.
  unfold notifications. generalize (notified l). intros ns Hnd.
  induction Hnd as [|x ns Hx Hnd IH]; [simpl; lia|].
  rewrite filter_cons. case_decide as Hxs; [|done].
  subst x. simpl.
  destruct (filter (λ x, x = s) ns) as [|y rest] eqn:Hf; [simpl; lia|].
  assert (y ∈ filter (λ x, x = s) ns) as Hy by (rewrite Hf; left).
  apply list_elem_of_filter in Hy as [-> Hy]. done.
Qed.


(** *** The invariant of the reachable states *)

Lemma Inv_ext w w' :
  inner w' = inner w → nextSubscriber w' = nextSubscriber w →
  notified (log w') = notified (log w) →
  observers w' = observers w → isStopped w' = isStopped w →
  Inv w → Inv w'.
Proof.
  intros Hi Hn Hl Ho Hs [].
  split; rewrite ?Hi, ?Hn, ?Hl, ?Ho, ?Hs; done.
Qed.

Lemma Inv_constructor (rf : RendererFactory2 Host) (h : Host) :
  Inv (constructor rf h : World Host Element Node).
Proof.
  split; simpl; try (intros; simplify_map_eq; fail).
  - apply NoDup_nil_2.
  - intros s Hs. by apply elem_of_nil in Hs.
  - intros p [? Hp]. simplify_map_eq.
Qed.

Lemma Inv_emit_quiet (es : list Event) w :
  notified es = [] → Inv w → Inv (emit es w).
Proof.
  intros Hes. apply Inv_ext; try done.
  simpl. by rewrite notified_app, Hes, app_nil_r.
Qed.

Lemma Inv_subscribe p w : Inv w → Inv (subscribe p w).
Proof.
  intros HI. unfold subscribe.
  destruct (rendered w !! p); [|done]. simpl.
  destruct HI as [Hfresh Hun Hnd Hdis Honce Hold Hconn].
  assert (∀ q sq, inner w !! q = Some sq → nextSubscriber w ∉ sq) as Hnew.
  { intros q sq Hq Hin. specialize (Hfresh _ _ _ Hq Hin). lia. }
  assert (nextSubscriber w ∉ notified (log w)) as Hnew'.
  { intros Hin. specialize (Hold _ Hin). lia. }
  destruct (inner w !! p) as [subs|] eqn:Hp.
  - split; simpl.
    + intros q sq s. rewrite lookup_insert. case_decide.
      * intros [= <-]. rewrite elem_of_app, list_elem_of_singleton.
        intros [Hs| ->]; [|lia]. specialize (Hfresh _ _ _ Hp Hs). lia.
      * intros Hq Hs. specialize (Hfresh _ _ _ Hq Hs). lia.
    + intros q sq s. rewrite lookup_insert. case_decide; [|by eauto].
      intros [= <-]. rewrite elem_of_app, list_elem_of_singleton.
      intros [Hs| ->]; [by eauto|done].
    + intros q sq. rewrite lookup_insert. case_decide; [|by eauto].
      intros [= <-]. apply NoDup_app. split_and!; [by eauto| |apply NoDup_singleton].
      intros s Hs ->%list_elem_of_singleton. by eapply Hnew.
    + intros q1 q2 s1 s2 s. rewrite !lookup_insert.
      repeat case_decide; subst; try done.
      * intros [= <-] H2. rewrite elem_of_app, list_elem_of_singleton.
        intros [Hs| ->] Hs'; [by eauto|]. by destruct (Hnew _ _ H2).
      * intros H1 [= <-] Hs. rewrite elem_of_app, list_elem_of_singleton.
        intros [Hs'| ->]; [by eauto|]. by destruct (Hnew _ _ H1).
      * by eauto.
    + done.
    + intros s Hs. specialize (Hold _ Hs). lia.
    + intros q. rewrite lookup_insert. case_decide; [subst q|by eauto].
      intros _. apply Hconn. by eexists.
  - destruct (isStopped w) eqn:Hstop.
    + apply Inv_emit_quiet; [done|].
      split; simpl; [|exact Hun|exact Hnd|exact Hdis|exact Honce| |].
      * intros q sq s Hq Hs. specialize (Hfresh _ _ _ Hq Hs). lia.
      * intros s Hs. specialize (Hold _ Hs). lia.
      * intros q Hq. by destruct (Hconn q Hq).
    + split; simpl.
      * intros q sq s. rewrite lookup_insert. case_decide.
        -- intros [= <-] ->%list_elem_of_singleton. lia.
        -- intros Hq Hs. specialize (Hfresh _ _ _ Hq Hs). lia.
      * intros q sq s. rewrite lookup_insert. case_decide; [|by eauto].
        by intros [= <-] ->%list_elem_of_singleton.
      * intros q sq. rewrite lookup_insert. case_decide; [|by eauto].
        intros [= <-]. apply NoDup_singleton.
      * intros q1 q2 s1 s2 s. rewrite !lookup_insert.
        repeat case_decide; subst; try done.
        -- intros [= <-] H2 ->%list_elem_of_singleton Hs. by destruct (Hnew _ _ H2).
        -- intros H1 [= <-] Hs ->%list_elem_of_singleton. by destruct (Hnew _ _ H1).
        -- by eauto.
      * done.
      * intros s Hs. specialize (Hold _ Hs). lia.
      * intros q. rewrite lookup_insert, elem_of_app, list_elem_of_singleton.
        case_decide; [subst q; by auto|].
        intros Hq. destruct (Hconn q Hq). by auto.
Qed.

Lemma elem_of_remove (x y : nat) (l : list nat) :
  y ∈ remove x l ↔ y ≠ x ∧ y ∈ l.
Proof. unfold remove. by rewrite list_elem_of_filter. Qed.

Lemma NoDup_remove (x : nat) (l : list nat) : NoDup l → NoDup (remove x l).
Proof. apply NoDup_filter. Qed.

Lemma Inv_unsubscribe p s w : Inv w → Inv (unsubscribe p s w).
Proof.
  intros HI. unfold unsubscribe.
  destruct (inner w !! p) as [subs|] eqn:Hp; [|done].
  case_decide as Hs; [|done].
  destruct HI as [Hfresh Hun Hnd Hdis Honce Hold Hconn].
  destruct (remove s subs) as [|s' subs'] eqn:Hrem.
  - split; simpl; try done.
    + intros q sq x (_ & Hq)%lookup_delete_Some. eauto.
    + intros q sq x (_ & Hq)%lookup_delete_Some. eauto.
    + intros q sq (_ & Hq)%lookup_delete_Some. eauto.
    + intros q1 q2 s1 s2 x (_ & H1)%lookup_delete_Some (_ & H2)%lookup_delete_Some. eauto.
    + intros q [sq (Hne & Hq)%lookup_delete_Some].
      destruct (Hconn q) as [Hin Hst]; [by eexists|].
      split; [|done]. by apply elem_of_remove.
  - assert (∀ x, x ∈ s' :: subs' → x ∈ subs) as Hsub.
    { intros x. rewrite <- Hrem, elem_of_remove. tauto. }
    assert (NoDup (s' :: subs')) as Hnd'.
    { rewrite <- Hrem. apply NoDup_remove. eauto. }
    split; simpl; try done.
    + intros q sq x. rewrite lookup_insert. case_decide; [|eauto].
      intros [= <-] Hx. subst q. eauto.
    + intros q sq x. rewrite lookup_insert. case_decide; [|eauto].
      intros [= <-] Hx. subst q. eauto.
    + intros q sq. rewrite lookup_insert. case_decide; [|eauto].
      by intros [= <-].
    + intros q1 q2 s1 s2 x. rewrite !lookup_insert.
      repeat case_decide; subst; try done.
      * intros [= <-] H2 Hx1 Hx2. eauto.
      * intros H1 [= <-] Hx1 Hx2. eauto.
      * eauto.
    + intros q. rewrite lookup_insert. case_decide; [subst q|]; eauto.
Qed.

Lemma Inv_deliver_next w p : Inv w → Inv (deliver_next w p).
Proof.
  intros HI. unfold deliver_next.
  destruct (rendered w !! p) as [er|]; [|done].
  destruct (inner w !! p) as [subs|] eqn:Hp; [|done].
  destruct (attached (host w) er); [|done].
  destruct HI as [Hfresh Hun Hnd Hdis Honce Hold Hconn].
  assert (notified (log w ++ (Notify <$> subs) ++ (Completed <$> subs))
          = notified (log w) ++ subs) as Hlog.
  { by rewrite !notified_app, notified_Notify, notified_Completed, app_nil_r. }
  split; simpl; rewrite ?Hlog.
  - intros q sq x (_ & Hq)%lookup_delete_Some. eauto.
  - intros q sq x (Hne & Hq)%lookup_delete_Some Hx.
    rewrite elem_of_app. intros [Hin|Hin]; [by eapply Hun|].
    apply Hne. symmetry. eauto.
  - intros q sq (_ & Hq)%lookup_delete_Some. eauto.
  - intros q1 q2 s1 s2 x (_ & H1)%lookup_delete_Some (_ & H2)%lookup_delete_Some. eauto.
  - apply NoDup_app. split_and!; [done| |eauto].
    intros x Hx Hx'. by eapply Hun.
  - intros x. rewrite elem_of_app. intros [?|?]; eauto.
  - intros q [sq (Hne & Hq)%lookup_delete_Some].
    destruct (Hconn q) as [Hin Hst]; [by eexists|].
    split; [|done]. by apply elem_of_remove.
Qed.

Lemma Inv_foldl_deliver_next (l : list nat) w :
  Inv w → Inv (foldl deliver_next w l).
Proof.
  revert w. induction l as [|p l IH]; intros w HI; [done|].
  simpl. by apply IH, Inv_deliver_next.
Qed.

Lemma Inv_subject_next w : Inv w → Inv (subject_next w).
Proof.
  intros HI. unfold subject_next.
  assert (Inv (emit [SubjectNext] w)) as HI' by (by apply Inv_emit_quiet).
  destruct (isStopped (emit [SubjectNext] w)); [done|].
  by apply Inv_foldl_deliver_next.
Qed.

Lemma Inv_installedEnd w : Inv w → Inv (outcome (installedEnd w)).
Proof.
  intros HI. unfold installedEnd.
  assert (Inv (emit [OrigEnd] w)) as HI' by (by apply Inv_emit_quiet).
  destruct (origEndFn _ _) as [h|h]; simpl.
  - assert (Inv (set_host h (emit [OrigEnd] w))) as HI''.
    { revert HI'. by apply Inv_ext. }
    destruct (0 <? _); simpl; [by apply Inv_subject_next|done].
  - revert HI'. by apply Inv_ext.
Qed.

(** *** What one hand-over changes *)

Lemma notified_quiet (l : list Event) :
  Forall (λ e, quiet e = true) l → notified l = [].
Proof.
  induction 1 as [|e l He _ IH]; [done|].
  destruct e; simpl in *; done.
Qed.

Lemma Forall_delivery_fmap (f : nat → Event) subs :
  (∀ s, delivery (f s) = true) → Forall (λ e, delivery e = true) (f <$> subs).
Proof. intros Hf. apply Forall_fmap, Forall_forall. intros s _. apply Hf. Qed.

Lemma deliver_next_frame w p :
  host (deliver_next w p) = host w ∧
  rendered (deliver_next w p) = rendered w ∧
  origEndFn (deliver_next w p) = origEndFn w ∧
  isStopped (deliver_next w p) = isStopped w ∧
  inner (deliver_next w p) ⊆ inner w ∧
  (∀ q, q ≠ p → inner (deliver_next w p) !! q = inner w !! q).
Proof.
  unfold deliver_next.
  destruct (rendered w !! p) as [er|]; [|done].
  destruct (inner w !! p) as [subs|]; [|done].
  destruct (attached (host w) er); [|done].
  simpl. split_and!; try done.
  - apply delete_subseteq.
  - intros q Hq. by rewrite lookup_delete_ne.
Qed.

Lemma deliver_next_log w p :
  ∃ tail,
    log (deliver_next w p) = log w ++ tail ∧
    Forall (λ e, delivery e = true) tail ∧
    ∀ s, Notify s ∈ tail →
      ∃ er subs, rendered w !! p = Some er ∧ inner w !! p = Some subs ∧
                 s ∈ subs ∧ attached (host w) er = true.
Proof.
  unfold deliver_next.
  destruct (rendered w !! p) as [er|] eqn:Her.
  2:{ exists []. rewrite app_nil_r. split_and!; [done|done|]. by intros s ?%elem_of_nil. }
  destruct (inner w !! p) as [subs|] eqn:Hp.
  2:{ exists []. rewrite app_nil_r. split_and!; [done|done|]. by intros s ?%elem_of_nil. }
  destruct (attached (host w) er) eqn:Hat.
  2:{ exists []. rewrite app_nil_r. split_and!; [done|done|]. by intros s ?%elem_of_nil. }
  eexists. split_and!; [done| |].
  - apply Forall_app. split; by apply Forall_delivery_fmap.
  - intros s. rewrite elem_of_app, !list_elem_of_fmap.
    intros [(x & [= <-] & Hx)|(x & [=] & _)]. by exists er, subs.
Qed.

Lemma foldl_deliver_next_frame (l : list nat) w :
  host (foldl deliver_next w l) = host w ∧
  rendered (foldl deliver_next w l) = rendered w ∧
  origEndFn (foldl deliver_next w l) = origEndFn w ∧
  isStopped (foldl deliver_next w l) = isStopped w ∧
  inner (foldl deliver_next w l) ⊆ inner w.
Proof.
  revert w. induction l as [|p l IH]; intros w; [done|]. simpl.
  destruct (IH (deliver_next w p)) as (-> & -> & -> & -> & Hsub).
  destruct (deliver_next_frame w p) as (-> & -> & -> & -> & Hsub' & _).
  split_and!; try done. by etrans.
Qed.

Lemma foldl_deliver_next_log (l : list nat) w :
  ∃ tail,
    log (foldl deliver_next w l) = log w ++ tail ∧
    Forall (λ e, delivery e = true) tail ∧
    ∀ s, Notify s ∈ tail →
      ∃ p er subs, p ∈ l ∧ rendered w !! p = Some er ∧ inner w !! p = Some subs ∧
                   s ∈ subs ∧ attached (host w) er = true.
Proof.
  revert w. induction l as [|p l IH]; intros w.
  { exists []. rewrite app_nil_r. split_and!; [done|done|]. by intros s ?%elem_of_nil. }
  simpl.
  destruct (IH (deliver_next w p)) as (t2 & Hlog2 & Hd2 & Hn2).
  destruct (deliver_next_log w p) as (t1 & Hlog1 & Hd1 & Hn1).
  destruct (deliver_next_frame w p) as (Hh & Hr & _ & _ & Hsub & _).
  exists (t1 ++ t2). split_and!.
  - by rewrite Hlog2, Hlog1, (assoc_L (++)).
  - by apply Forall_app.
  - intros s. rewrite elem_of_app. intros [Hs|Hs].
    + destruct (Hn1 s Hs) as (er & subs & ?). exists p, er, subs.
      split; [left|done].
    + destruct (Hn2 s Hs) as (q & er & subs & Hq & Her & Hin & Hsubs & Hat).
      exists q, er, subs. rewrite Hr in Her. rewrite Hh in Hat.
      split_and!; try done; [by right|].
      by eapply lookup_weaken.
Qed.


Lemma deliver_complete_frame w p :
  host (deliver_complete w p) = host w ∧
  origEndFn (deliver_complete w p) = origEndFn w ∧
  isStopped (deliver_complete w p) = isStopped w ∧
  observers (deliver_complete w p) = observers w ∧
  nextSubscriber (deliver_complete w p) = nextSubscriber w ∧
  inner (deliver_complete w p) ⊆ inner w ∧
  inner (deliver_complete w p) !! p = None ∧
  ∃ tail, log (deliver_complete w p) = log w ++ tail ∧
          Forall (λ e, quiet e = true) tail.
Proof.
  unfold deliver_complete. destruct (inner w !! p) as [subs|] eqn:Hp; simpl.
  - split_and!; try done; [apply delete_subseteq|apply lookup_delete_eq|].
    eexists. split; [done|]. apply Forall_fmap, Forall_forall. by intros s _.
  - split_and!; try done. exists []. by rewrite app_nil_r.
Qed.

Lemma foldl_deliver_complete_frame (l : list nat) w :
  host (foldl deliver_complete w l) = host w ∧
  origEndFn (foldl deliver_complete w l) = origEndFn w ∧
  isStopped (foldl deliver_complete w l) = isStopped w ∧
  observers (foldl deliver_complete w l) = observers w ∧
  nextSubscriber (foldl deliver_complete w l) = nextSubscriber w ∧
  inner (foldl deliver_complete w l) ⊆ inner w ∧
  (∀ p, p ∈ l → inner (foldl deliver_complete w l) !! p = None) ∧
  ∃ tail, log (foldl deliver_complete w l) = log w ++ tail ∧
          Forall (λ e, quiet e = true) tail.
Proof.
  revert w. induction l as [|p l IH]; intros w; simpl.
  { split_and!; try done.
    - by intros p ?%elem_of_nil.
    - exists []. by rewrite app_nil_r. }
  destruct (IH (deliver_complete w p))
    as (-> & -> & -> & -> & -> & Hsub2 & Hnone2 & t2 & Hlog2 & Hq2).
  destruct (deliver_complete_frame w p)
    as (-> & -> & -> & -> & -> & Hsub1 & Hnone1 & t1 & Hlog1 & Hq1).
  split_and!; try done.
  - by etrans.
  - intros q [->|Hq]%elem_of_cons; [|by apply Hnone2].
    destruct (inner (foldl deliver_complete (deliver_complete w p) l) !! p) eqn:E; [|done].
    eapply lookup_weaken in E; [|done]. congruence.
  - exists (t1 ++ t2). split; [|by apply Forall_app].
    by rewrite Hlog2, Hlog1, (assoc_L (++)).
Qed.

Lemma ngOnDestroy_frame w :
  host (ngOnDestroy w) = host w ∧
  origEndFn (ngOnDestroy w) = origEndFn w ∧
  isStopped (ngOnDestroy w) = true ∧
  observers (ngOnDestroy w) = [] ∧
  nextSubscriber (ngOnDestroy w) = nextSubscriber w ∧
  inner (ngOnDestroy w) ⊆ inner w ∧
  (∀ p, p ∈ observers w → inner (ngOnDestroy w) !! p = None) ∧
  ∃ tail, log (ngOnDestroy w) = log w ++ tail ∧
          Forall (λ e, quiet e = true) tail.
Proof.
  unfold ngOnDestroy, subject_complete. simpl.
  destruct (foldl_deliver_complete_frame (observers w) (set_isStopped true w))
    as (-> & -> & -> & _ & -> & ? & ? & ?).
  done.
Qed.

Lemma Inv_ngOnDestroy w : Inv w → Inv (ngOnDestroy w).
Proof.
  intros [Hfresh Hun Hnd Hdis Honce Hold Hconn].
  destruct (ngOnDestroy_frame w)
    as (_ & _ & Hst & Hobs & Hnext & Hsub & Hnone & tail & Hlog & Hq).
  assert (∀ p subs, inner (ngOnDestroy w) !! p = Some subs → False) as Hempty.
  { intros p subs Hp.
    assert (inner w !! p = Some subs) as Hp' by (by eapply lookup_weaken).
    destruct (Hconn p) as [Hin _]; [by eexists|].
    rewrite (Hnone p Hin) in Hp. done. }
  assert (notified (log (ngOnDestroy w)) = notified (log w)) as Hnot.
  { by rewrite Hlog, notified_app, (notified_quiet tail), app_nil_r. }
  split; rewrite ?Hnot, ?Hnext; try done.
  - intros p subs s Hp. by destruct (Hempty _ _ Hp).
  - intros p subs s Hp. by destruct (Hempty _ _ Hp).
  - intros p subs Hp. by destruct (Hempty _ _ Hp).
  - intros p q sp sq s Hp. by destruct (Hempty _ _ Hp).
  - intros p [subs Hp]. by destruct (Hempty _ _ Hp).
Qed.

(** *** Runs *)

Lemma Inv_step w (op : Op Host Element Node) : Inv w → Inv (step w op).
Proof.
  intros HI. destruct op as [el r|p|p s| | |g]; simpl.
  - revert HI. by apply Inv_ext.
  - by apply Inv_subscribe.
  - by apply Inv_unsubscribe.
  - by apply Inv_installedEnd.
  - by apply Inv_ngOnDestroy.
  - revert HI. by apply Inv_ext.
Qed.

Lemma Inv_run ops w : Inv w → Inv (run w ops).
Proof.
  revert w. induction ops as [|op ops IH]; intros w HI; [done|].
  simpl. by apply IH, Inv_step.
Qed.

Lemma run_snoc w ops (op : Op Host Element Node) :
  run w (ops ++ [op]) = step (run w ops) op.
Proof. unfold run. by rewrite foldl_app. Qed.

Lemma subject_next_frame w :
  host (subject_next w) = host w ∧ origEndFn (subject_next w) = origEndFn w.
Proof.
  unfold subject_next. destruct (isStopped _); [done|].
  destruct (foldl_deliver_next_frame (observers (emit [SubjectNext] w)) (emit [SubjectNext] w))
    as (-> & _ & -> & _).
  done.
Qed.

Lemma installedEnd_frame w :
  cmap host (installedEnd w) = origEndFn w (host w) ∧
  origEndFn (outcome (installedEnd w)) = origEndFn w.
Proof.
  unfold installedEnd. simpl.
  destruct (origEndFn w (host w)) as [h|h]; simpl; [|done].
  destruct (0 <? _); simpl; [|done].
  destruct (subject_next_frame (set_host h (emit [OrigEnd] w))) as [-> ->]. done.
Qed.

Lemma step_origEndFn w (op : Op Host Element Node) :
  origEndFn (step w op) = origEndFn w.
Proof.
  destruct op as [el r|p|p s| | |g]; simpl; try done.
  - unfold subscribe. destruct (rendered w !! p); [|done]. simpl.
    destruct (inner w !! p); [done|]. by destruct (isStopped w).
  - unfold unsubscribe. destruct (inner w !! p); [|done].
    case_decide; [|done]. by destruct (remove s _).
  - apply installedEnd_frame.
  - apply ngOnDestroy_frame.
Qed.

Lemma run_origEndFn ops w : origEndFn (run w ops) = origEndFn w.
Proof.
  revert w. induction ops as [|op ops IH]; intros w; [done|].
  simpl. by rewrite IH, step_origEndFn.
Qed.

(** *** The installed hook *)

(** What one call of the installed hook logs: the call of the original
    hook, then, when that returned and [observers] was not empty, the
    call of [subject.next()] and what it hands to the subscribers. *)
Lemma installedEnd_log w :
  ∃ rest,
    log (outcome (installedEnd w)) =
      log w ++ OrigEnd ::
        (if returned (origEndFn w (host w)) && (0 <? length (observers w))
         then SubjectNext :: rest else []) ∧
    Forall (λ e, delivery e = true) rest ∧
    ∀ s, Notify s ∈ rest →
      ∃ p er subs, p ∈ observers w ∧ rendered w !! p = Some er ∧
        inner w !! p = Some subs ∧ s ∈ subs ∧
        attached (host (outcome (installedEnd w))) er = true.
Proof.
  unfold installedEnd. simpl.
  destruct (origEndFn w (host w)) as [h|h]; simpl.
  2:{ exists []. split_and!; [done|done|]. by intros s ?%elem_of_nil. }
  destruct (0 <? length (observers w)) eqn:Hlen; simpl.
  2:{ exists []. split_and!; [done|done|]. by intros s ?%elem_of_nil. }
  unfold subject_next. simpl.
  destruct (isStopped w) eqn:Hst.
  { exists []. simpl. rewrite <- (assoc_L (++)). simpl.
    split_and!; [done|done|]. by intros s ?%elem_of_nil. }
  set (w1 := emit [SubjectNext] (set_host h (emit [OrigEnd] w))).
  destruct (foldl_deliver_next_log (observers w) w1) as (rest & Hlog & Hd & Hn).
  destruct (foldl_deliver_next_frame (observers w) w1) as (Hh & _).
  exists rest. split_and!; [|done|].
  - rewrite Hlog. simpl. by rewrite <- !(assoc_L (++)).
  - intros s Hs. destruct (Hn s Hs) as (p & er & subs & ?).
    exists p, er, subs. by rewrite Hh.
Qed.

(** C5: a call of the installed hook calls [subject.next()] only when
    [observers] is not empty at that call, and only after the call of the
    original hook; and over any run of a constructed observer each
    subscriber of an observable returned by [whenRendered] is notified
    at most once. *)
Theorem render_signal_guarded_and_once :
  (∀ w, ∃ rest,
      log (outcome (installedEnd w)) =
        log w ++ OrigEnd ::
          (if returned (origEndFn w (host w)) && (0 <? length (observers w))
           then SubjectNext :: rest else []) ∧
      Forall (λ e, delivery e = true) rest) ∧
  (∀ (rf : RendererFactory2 Host) (h : Host) ops s,
      notifications s (log (run (constructor rf h : World Host Element Node) ops)) ≤ 1).
Proof.
  split.
  - intros w. destruct (installedEnd_log w) as (rest & ? & ? & _). by exists rest.
  - intros rf h ops s. apply notifications_NoDup.
    apply (inv_once _ (Inv_run ops _ (Inv_constructor rf h))).
Qed.

Lemma since_app w w' (tail : list Event) :
  log w' = log w ++ tail → since w w' = tail.
Proof. intros E. unfold since. rewrite E. by rewrite drop_app_length. Qed.






(** *** After teardown *)

Lemma step_stopped w (op : Op Host Element Node) :
  isStopped w = true → observers w = [] →
  isStopped (step w op) = true ∧ observers (step w op) = [] ∧
  ∃ tail, log (step w op) = log w ++ tail ∧ Forall (λ e, quiet e = true) tail.
Proof.
  intros Hst Hobs.
  assert (∃ tail : list Event, log w = log w ++ tail ∧ Forall (λ e, quiet e = true) tail) as Hnil.
  { exists []. by rewrite app_nil_r. }
  destruct op as [el r|p|p s| | |g]; simpl; try done.
  - unfold subscribe. destruct (rendered w !! p); [|done]. simpl.
    destruct (inner w !! p); [done|]. rewrite Hst. simpl.
    split_and!; try done. eexists. split; [done|]. by apply Forall_singleton.
  - unfold unsubscribe. destruct (inner w !! p); [|done].
    case_decide; [|done]. destruct (remove s _); simpl; [|done].
    by rewrite Hobs.
  - unfold installedEnd. simpl. rewrite Hobs. simpl.
    destruct (origEndFn w (host w)); simpl;
      (split_and!; try done; eexists; split; [done|]; by apply Forall_singleton).
  - destruct (ngOnDestroy_frame w) as (_ & _ & ? & ? & _ & _ & _ & ?). done.
Qed.

Lemma run_stopped ops w :
  isStopped w = true → observers w = [] →
  ∃ tail, log (run w ops) = log w ++ tail ∧ Forall (λ e, quiet e = true) tail.
Proof.
  revert w. induction ops as [|op ops IH]; intros w Hst Hobs.
  { exists []. by rewrite app_nil_r. }
  simpl. destruct (step_stopped w op Hst Hobs) as (Hst' & Hobs' & t1 & Hlog1 & Hq1).
  destruct (IH _ Hst' Hobs') as (t2 & Hlog2 & Hq2).
  exists (t1 ++ t2). split; [|by apply Forall_app].
  by rewrite Hlog2, Hlog1, (assoc_L (++)).
Qed.

(** C7: from [ngOnDestroy] on, whatever happens, and however often the
    installed hook is called, [subject.next()] is not called and no
    subscriber is notified: the log grows by calls of the original hook
    and by completions only. *)
Theorem ngOnDestroy_closes_channel w ops :
  ∃ tail,
    log (run (ngOnDestroy w) ops) = log w ++ tail ∧
    Forall (λ e, quiet e = true) tail ∧
    ∀ s, notifications s (log (run (ngOnDestroy w) ops)) = notifications s (log w).
Proof.
  destruct (ngOnDestroy_frame w) as (_ & _ & Hst & Hobs & _ & _ & _ & t1 & Hlog1 & Hq1).
  destruct (run_stopped ops _ Hst Hobs) as (t2 & Hlog2 & Hq2).
  assert (Forall (λ e, quiet e = true) (t1 ++ t2)) as Hq by (by apply Forall_app).
  exists (t1 ++ t2). split_and!; [|done|].
  - by rewrite Hlog2, Hlog1, (assoc_L (++)).
  - intros s. unfold notifications.
    by rewrite Hlog2, Hlog1, <- (assoc_L (++)), notified_app, (notified_quiet _ Hq), app_nil_r.
Qed.

(** C8: with an original hook [f] installed on the factory, every call of
    the installed hook applies [f] to the engine, first and once, and
    leaves the engine as [f] leaves it (returning where [f] returns and
    throwing where [f] throws); nothing but the notification follows. *)
Theorem installedEnd_preserves_original (f : EndFn Host) (h0 : Host) ops :
  let w : World Host Element Node := run (constructor {| rf_end := Some f |} h0) ops in
  cmap host (installedEnd w) = f (host w) ∧
  ∃ tail,
    log (outcome (installedEnd w)) = log w ++ OrigEnd :: tail ∧
    OrigEnd ∉ tail.
Proof.
  intros w.
  assert (origEndFn w = f) as Hf by apply run_origEndFn.
  split.
  - rewrite <- Hf. apply installedEnd_frame.
  - destruct (installedEnd_log w) as (rest & Hlog & Hd & _).
    eexists. split; [exact Hlog|].
    destruct (_ && _); [|by intros ?%elem_of_nil].
    intros [[=]|Hin]%elem_of_cons.
    rewrite Forall_forall in Hd. by specialize (Hd _ Hin).
Qed.

(** C10: on a factory without an [end] hook the constructor puts [noop]
    in its place, and every later call of the installed hook returns,
    leaving the engine as it found it. *)
Theorem installedEnd_without_original (h0 : Host) ops :
  let w : World Host Element Node := run (constructor {| rf_end := None |} h0) ops in
  origEndFn w = noop ∧
  ∃ w', installedEnd w = Normal w' ∧ host w' = host w.
Proof.
  intros w.
  assert (origEndFn w = noop) as Hf by apply run_origEndFn.
  split; [done|].
  pose proof (installedEnd_frame w) as [Hhost _].
  rewrite Hf in Hhost. unfold noop in Hhost.
  destruct (installedEnd w) as [w'|w'] eqn:E; simpl in Hhost; [|done].
  exists w'. split; [done|]. by injection Hhost.
Qed.

End Observer.



End ProvidersSpec.

(** * Further properties of the code *)

(** ** mergeOptions: defaults that are missing, options that are [null],
       keys the override leaves alone *)

Module MergeOptionsMore.

Import ExploreEffects MergeOptionsSpec.
Local Open Scope string_scope.

Lemma union_absorb (o d : obj) : o ∪ (o ∪ d) = o ∪ d.
Proof.
  apply map_eq. intros k. rewrite !lookup_union.
  by destruct (o !! k), (d !! k).
Qed.

(** X1: defaults that are [undefined] or [null] (as when [effects()] is given
    no options) count as the empty object, whatever the per-effect
    options are. *)
Theorem mergeOptions_nullish_defaults (options : jsarg) :
  mergeOptions ArgUndefined options = mergeOptions (ArgObj ∅) options ∧
  mergeOptions ArgNull options = mergeOptions (ArgObj ∅) options.
Proof.
  unfold mergeOptions, Object_assign. simpl.
  rewrite (left_id_L ∅ (∪)). done.
Qed.

(** X2: per-effect options that are [null] are not replaced by [{}]: the
    call throws a [TypeError] when the defaults leave [markDirty]
    undefined, and returns the defaults when they define it. *)
Theorem mergeOptions_null_options (defaults : obj) :
  mergeOptions (ArgObj defaults) ArgNull =
    if is_undefined (get defaults "markDirty") then TypeError else Ok defaults.
Proof.
  unfold mergeOptions, Object_assign. simpl.
  by rewrite (right_id_L ∅ (∪)).
Qed.

(** X3: a key other than [markDirty] that the override does not have keeps
    what the defaults say about it, present or absent. *)
Theorem mergeOptions_keeps_defaults (defaults override merged : obj) (k : string) :
  mergeOptions (ArgObj defaults) (ArgObj override) = Ok merged →
  k ≠ "markDirty" →
  override !! k = None →
  merged !! k = defaults !! k.
Proof.
  rewrite mergeOptions_objects. intros [= <-] Hk Ho.
  destruct (_ && _).
  - by rewrite lookup_insert_ne, lookup_union, Ho, (left_id_L None (∪)).
  - by rewrite lookup_union, Ho, (left_id_L None (∪)).
Qed.

Lemma mergeOptions_keeps_defaults_witness :
  ({["bind" := VStr "count"; "whenRendered" := VBool true;
     "markDirty" := VBool true]} : obj) !! "whenRendered"
  = ({["whenRendered" := VBool true]} : obj) !! "whenRendered".
Proof.
  apply (mergeOptions_keeps_defaults
           {["whenRendered" := VBool true]} {["bind" := VStr "count"]}).
  - vm_compute. reflexivity.
  - discriminate.
  - reflexivity.
Defined.

(** X4: merging is idempotent in the override: laying the same override over
    a merged result gives that result again. *)
Theorem mergeOptions_idempotent (defaults override merged : obj) :
  mergeOptions (ArgObj defaults) (ArgObj override) = Ok merged →
  mergeOptions (ArgObj merged) (ArgObj override) = Ok merged.
Proof.
  rewrite !mergeOptions_objects. intros [= <-].
  set (b := Boolean (or (get override "bind") (get override "assign"))).
  destruct (is_undefined (get (override ∪ defaults) "markDirty")) eqn:Hu; simpl.
  2:{ by rewrite union_absorb, Hu. }
  destruct b eqn:Hb; simpl.
  2:{ by rewrite union_absorb, Hu. }
  rewrite get_union, get_insert, decide_True by done.
  rewrite get_union in Hu.
  destruct (override !! "markDirty") as [v|] eqn:Hmd; simpl.
  - rewrite Hu. simpl. f_equal.
    apply map_eq. intros k. destruct (decide (k = "markDirty")) as [->|Hk].
    + by rewrite !lookup_insert_eq.
    + rewrite !lookup_insert_ne by done. rewrite lookup_union, lookup_insert_ne by done.
      rewrite <- lookup_union. by rewrite union_absorb.
  - f_equal.
    apply map_eq. intros k. destruct (decide (k = "markDirty")) as [->|Hk].
    + by rewrite lookup_union, Hmd, lookup_insert_eq.
    + rewrite lookup_union, !lookup_insert_ne by done.
      rewrite <- lookup_union. by rewrite union_absorb.
Qed.

Lemma mergeOptions_idempotent_witness :
  mergeOptions (ArgObj {["bind" := VStr "count"; "markDirty" := VBool true]})
               (ArgObj {["bind" := VStr "count"]})
  = Ok {["bind" := VStr "count"; "markDirty" := VBool true]}.
Proof.
  apply (mergeOptions_idempotent ∅ {["bind" := VStr "count"]}).
  vm_compute. reflexivity.
Defined.

(** X5: an effect with a truthy [bind] or [assign] never ends up with
    [markDirty] undefined. *)
Theorem mergeOptions_bound_markDirty_defined (defaults override merged : obj) :
  Boolean (or (get override "bind") (get override "assign")) = true →
  mergeOptions (ArgObj defaults) (ArgObj override) = Ok merged →
  is_undefined (get merged "markDirty") = false.
Proof.
  rewrite mergeOptions_objects. intros -> [= <-]. rewrite andb_true_r.
  destruct (is_undefined (get (override ∪ defaults) "markDirty")) eqn:Hu; [|done].
  by rewrite get_insert, decide_True.
Qed.

Lemma mergeOptions_bound_markDirty_defined_witness :
  is_undefined
    (get ({["assign" := VBool true; "markDirty" := VBool true]} : obj) "markDirty")
  = false.
Proof.
  apply (mergeOptions_bound_markDirty_defined ∅ {["assign" := VBool true]}).
  - reflexivity.
  - vm_compute. reflexivity.
Defined.

End MergeOptionsMore.

(** ** exploreEffects: what a call puts in the registry, and when it throws *)

Module ExploreEffectsMore.

Import ExploreEffects ExploreEffectsSpec.

Section Calls.

Context (store : MetadataStore) (defaults : jsarg).

Implicit Types (registry : gmap ClassType (list EffectMetadata)).
Implicit Types (decls : list (ClassType * list (string * jsarg))).

(** The inner loop only appends; when it ends without a throw it has
    appended one descriptor per declared effect, in order. *)
Lemma addEffects_returned ty effects acc res :
  addEffects store defaults ty effects acc = (res, false) →
  ∃ descs, res = acc ++ descs ∧
    Forall2 (λ e d, describe store defaults ty e.1 e.2 = Ok d) effects descs.
Proof.
  revert acc. induction effects as [|[nm locals] effects IH]; intros acc; simpl.
  { intros [= <-]. exists []. by rewrite app_nil_r. }
  destruct (describe store defaults ty nm locals) as [d|] eqn:Hd; [|done].
  intros (descs & -> & HF)%IH. exists (d :: descs).
  split; [by rewrite <- (assoc_L (++))|]. by constructor.
Qed.

(** When it is left by a throw, fewer descriptors than declared effects
    have been appended. *)
Lemma addEffects_threw ty effects acc res :
  addEffects store defaults ty effects acc = (res, true) →
  ∃ descs, res = acc ++ descs ∧ length descs < length effects.
Proof.
  revert acc. induction effects as [|[nm locals] effects IH]; intros acc; simpl; [done|].
  destruct (describe store defaults ty nm locals) as [d|] eqn:Hd.
  - intros (descs & -> & Hlen)%IH. exists (d :: descs).
    split; [by rewrite <- (assoc_L (++))|]. simpl. lia.
  - intros [= <-]. exists []. split; [by rewrite app_nil_r|]. simpl. lia.
Qed.

Lemma describe_shape ty nm locals d :
  describe store defaults ty nm locals = Ok d →
  type d = ty ∧ name d = nm ∧ path d = (type_name ty ++ " -> " ++ nm)%string ∧
  mergeOptions defaults locals = Ok (options d) ∧
  args d = [argDecls store State ty nm; argDecls store Context ty nm;
            argDecls store Observe ty nm].
Proof.
  unfold describe. destruct (mergeOptions defaults locals) as [opts|]; [|done].
  by intros [= <-].
Qed.

Lemma exploreEffects_returned registry seq :
  (exploreEffects store defaults registry).2 = Ok seq →
  (exploreTypes store defaults (effectDecls store) registry).2 = false.
Proof.
  unfold exploreEffects. destruct (exploreTypes _ _ _ _) as [r threw]; simpl.
  by destruct threw.
Qed.

Lemma exploreEffects_threw registry :
  (exploreEffects store defaults registry).2 = TypeError →
  (exploreTypes store defaults (effectDecls store) registry).2 = true.
Proof.
  unfold exploreEffects. destruct (exploreTypes _ _ _ _) as [r threw]; simpl.
  by destruct threw.
Qed.

Lemma exploreTypes_new_class decls registry ty effects :
  (exploreTypes store defaults decls registry).2 = false →
  NoDup decls.*1 →
  (ty, effects) ∈ decls →
  registry !! ty = None →
  ∃ descs,
    (exploreTypes store defaults decls registry).1 !! ty = Some descs ∧
    Forall2 (λ e d, describe store defaults ty e.1 e.2 = Ok d) effects descs.
Proof.
  revert registry. induction decls as [|[ty' effects'] decls IH];
    intros registry Hok Hnd Hin Hnew.
  { by apply elem_of_nil in Hin. }
  simpl in *. apply NoDup_cons in Hnd as [Hfirst Hnd].
  apply elem_of_cons in Hin as [Heq|Hin].
  - inversion Heq; subst ty' effects'; clear Heq.
    rewrite decide_False in * by (rewrite Hnew; by intros [? ?]).
    destruct (addEffects store defaults ty effects []) as [effect threw] eqn:Hadd.
    destruct threw; [done|].
    apply addEffects_returned in Hadd as (descs & -> & HF).
    exists descs. split; [|done].
    erewrite exploreTypes_keeps; [done|]. by rewrite lookup_insert_eq.
  - assert (ty' ≠ ty) as Hne.
    { intros ->. apply Hfirst. apply list_elem_of_fmap. by exists (ty, effects). }
    case_decide as Hseen; [by apply IH|].
    destruct (addEffects store defaults ty' effects' []) as [effect threw].
    destruct threw; [done|].
    apply IH; try done. by rewrite lookup_insert_ne.
Qed.

(** X6: when a call returns, a class that was not in the registry and that
    the decorators declare is now cached with one descriptor per declared
    effect, in declaration order, each made of the class, the effect's
    name, the path ["<class name> -> <effect name>"], the options merged
    with this call's defaults, and the three argument slots. *)
Theorem exploreEffects_caches_new_class registry seq ty effects :
  (exploreEffects store defaults registry).2 = Ok seq →
  NoDup (effectDecls store).*1 →
  (ty, effects) ∈ effectDecls store →
  registry !! ty = None →
  ∃ descs,
    (exploreEffects store defaults registry).1 !! ty = Some descs ∧
    Forall2 (λ e d,
        type d = ty ∧ name d = e.1 ∧
        path d = (type_name ty ++ " -> " ++ e.1)%string ∧
        mergeOptions defaults e.2 = Ok (options d) ∧
        args d = [argDecls store State ty e.1; argDecls store Context ty e.1;
                  argDecls store Observe ty e.1])
      effects descs.
Proof.
  intros Hok%exploreEffects_returned Hnd Hin Hnew.
  destruct (exploreTypes_new_class _ _ _ _ Hok Hnd Hin Hnew) as (descs & Hd & HF).
  exists descs. rewrite exploreEffects_registry. split; [done|].
  eapply Forall2_impl; [exact HF|]. intros [nm locals] d. apply describe_shape.
Qed.

Lemma exploreTypes_dom decls registry :
  (exploreTypes store defaults decls registry).2 = false →
  dom (exploreTypes store defaults decls registry).1
    = dom registry ∪ list_to_set decls.*1.
Proof.
  revert registry. induction decls as [|[ty effects] decls IH]; intros registry Hok; simpl in *.
  { by rewrite (right_id_L ∅ (∪)). }
  case_decide as Hseen.
  - rewrite IH by done. apply elem_of_dom in Hseen.
    apply set_eq. intros x. rewrite !elem_of_union, elem_of_singleton.
    split; [tauto|]. intros [?|[->|?]]; auto.
  - destruct (addEffects store defaults ty effects []) as [effect threw].
    destruct threw; [done|]. rewrite IH by done. rewrite dom_insert_L.
    apply set_eq. intros x. rewrite !elem_of_union, elem_of_singleton. tauto.
Qed.

(** X7: when a call returns, the registered classes are those that were
    registered before together with every class the decorators declare. *)
Theorem exploreEffects_registered_classes registry seq :
  (exploreEffects store defaults registry).2 = Ok seq →
  dom (exploreEffects store defaults registry).1
    = dom registry ∪ list_to_set (effectDecls store).*1.
Proof.
  intros Hok%exploreEffects_returned.
  rewrite exploreEffects_registry. by apply exploreTypes_dom.
Qed.

Lemma exploreTypes_all_seen decls registry :
  (∀ ty, ty ∈ decls.*1 → is_Some (registry !! ty)) →
  exploreTypes store defaults decls registry = (registry, false).
Proof.
  induction decls as [|[ty effects] decls IH]; intros Hall; simpl; [done|].
  rewrite decide_True by (apply Hall; simpl; left).
  apply IH. intros ty' Hin. apply Hall. simpl. by right.
Qed.

Lemma exploreTypes_threw decls registry :
  (exploreTypes store defaults decls registry).2 = true →
  ∃ ty effects descs,
    (ty, effects) ∈ decls ∧ registry !! ty = None ∧
    (exploreTypes store defaults decls registry).1 !! ty = Some descs ∧
    length descs < length effects.
Proof.
  revert registry. induction decls as [|[ty effects] decls IH]; intros registry; simpl; [done|].
  case_decide as Hseen.
  - intros (ty' & effects' & descs & Hin & ? & ? & ?)%IH.
    exists ty', effects', descs. split_and!; try done. by right.
  - assert (registry !! ty = None) as Hnew.
    { destruct (registry !! ty) eqn:E; [|done]. exfalso. apply Hseen. by eexists. }
    destruct (addEffects store defaults ty effects []) as [effect threw] eqn:Hadd.
    destruct threw; simpl.
    + intros _. apply addEffects_threw in Hadd as (descs & -> & Hlen).
      exists ty, effects, descs. split_and!; [left|done| |done].
      by rewrite lookup_insert_eq.
    + intros (ty' & effects' & descs & Hin & Hnone & ? & ?)%IH.
      exists ty', effects', descs. split_and!; try done; [by right|].
      destruct (decide (ty = ty')) as [->|Hne]; [by rewrite lookup_insert_eq in Hnone|].
      by rewrite lookup_insert_ne in Hnone.
Qed.

Lemma mergeOptions_not_null (options : jsarg) :
  options ≠ ArgNull → ∃ merged, mergeOptions defaults options = Ok merged.
Proof.
  intros Hnn. unfold mergeOptions.
  destruct options as [| |o]; [|done|]; destruct (is_undefined _); eauto;
    destruct (Boolean _); eauto.
Qed.

Lemma addEffects_not_null ty effects acc :
  Forall (λ e, e.2 ≠ ArgNull) effects →
  (addEffects store defaults ty effects acc).2 = false.
Proof.
  intros HF. revert acc. induction HF as [|[nm locals] effects Hnn _ IH]; intros acc; [done|].
  simpl. unfold describe.
  destruct (mergeOptions_not_null locals Hnn) as [merged ->]. apply IH.
Qed.

Lemma exploreTypes_not_null decls registry :
  Forall (λ te, Forall (λ e, e.2 ≠ ArgNull) te.2) decls →
  (exploreTypes store defaults decls registry).2 = false.
Proof.
  intros HF. revert registry.
  induction HF as [|[ty effects] decls Hnn _ IH]; intros registry; [done|].
  simpl. case_decide; [apply IH|].
  pose proof (addEffects_not_null ty effects [] Hnn) as Hadd.
  destruct (addEffects store defaults ty effects []) as [effect threw].
  simpl in Hadd. subst threw. apply IH.
Qed.

(** X8: a call returns when no declared effect carries [null] options:
    options that are objects or left out never make it throw. *)
Theorem exploreEffects_returns registry :
  Forall (λ te, Forall (λ e, e.2 ≠ ArgNull) te.2) (effectDecls store) →
  (exploreEffects store defaults registry).2 = Ok (Entry <$> effectDecls store).
Proof.
  intros HF. unfold exploreEffects.
  pose proof (exploreTypes_not_null (effectDecls store) registry HF) as Hok.
  destruct (exploreTypes _ _ _ _) as [r threw]. simpl in *. by subst threw.
Qed.

(** X9: when a call throws, it has already registered the class it was
    working on, with fewer descriptors than the class declares effects;
    the class was not in the registry before the call. *)
Theorem exploreEffects_throw_leaves_partial registry :
  (exploreEffects store defaults registry).2 = TypeError →
  ∃ ty effects descs,
    (ty, effects) ∈ effectDecls store ∧ registry !! ty = None ∧
    (exploreEffects store defaults registry).1 !! ty = Some descs ∧
    length descs < length effects.
Proof.
  intros Hthrew%exploreEffects_threw. rewrite exploreEffects_registry.
  by apply exploreTypes_threw.
Qed.

End Calls.

(** X10: after a call that returned, a further call over the same decorator
    metadata, with any defaults, returns as well and leaves the whole
    registry as it is. *)
Theorem exploreEffects_second_call (store : MetadataStore) (d1 d2 : jsarg)
    (registry : gmap ClassType (list EffectMetadata)) seq :
  (exploreEffects store d1 registry).2 = Ok seq →
  exploreEffects store d2 (exploreEffects store d1 registry).1
    = ((exploreEffects store d1 registry).1, Ok seq).
Proof.
  intros Hret.
  pose proof (exploreEffects_returns_entries _ _ _ _ Hret) as ->.
  pose proof (exploreEffects_returned _ _ _ _ Hret) as Hok.
  unfold exploreEffects at 1.
  rewrite exploreTypes_all_seen; [done|].
  intros ty (te & -> & Hin)%list_elem_of_fmap. destruct te as [ty effects].
  rewrite exploreEffects_registry. by eapply exploreTypes_registers.
Qed.

Lemma exploreEffects_caches_new_class_witness :
  ∃ descs,
    (exploreEffects countStore ArgUndefined ∅).1 !! AppComponent = Some descs ∧
    Forall2 (λ e d,
        type d = AppComponent ∧ name d = e.1 ∧
        path d = (type_name AppComponent ++ " -> " ++ e.1)%string ∧
        mergeOptions ArgUndefined e.2 = Ok (options d) ∧
        args d = [argDecls countStore State AppComponent e.1;
                  argDecls countStore Context AppComponent e.1;
                  argDecls countStore Observe AppComponent e.1])
      [("setCount"%string, ArgObj {["bind"%string := VStr "count"]})] descs.
Proof.
  apply (exploreEffects_caches_new_class countStore ArgUndefined ∅
           (Entry <$> effectDecls countStore) AppComponent).
  - vm_compute. reflexivity.
  - apply NoDup_singleton.
  - left.
  - reflexivity.
Defined.

Lemma exploreEffects_registered_classes_witness :
  dom (exploreEffects countStore ArgUndefined ∅).1
    = dom (∅ : gmap ClassType (list EffectMetadata))
      ∪ list_to_set (effectDecls countStore).*1.
Proof.
  apply (exploreEffects_registered_classes countStore ArgUndefined ∅
           (Entry <$> effectDecls countStore)).
  vm_compute. reflexivity.
Defined.

Lemma exploreEffects_returns_witness :
  (exploreEffects countStore ArgNull ∅).2 = Ok (Entry <$> effectDecls countStore).
Proof.
  apply (exploreEffects_returns countStore ArgNull ∅).
  repeat constructor; simpl; discriminate.
Defined.

Lemma exploreEffects_throw_leaves_partial_witness :
  ∃ ty effects descs,
    (ty, effects) ∈ [(AppComponent,
                      [("first"%string, ArgObj ∅); ("second"%string, ArgNull)])] ∧
    (∅ : gmap ClassType (list EffectMetadata)) !! ty = None ∧
    (exploreEffects
       {| effectDecls := [(AppComponent,
                           [("first"%string, ArgObj ∅); ("second"%string, ArgNull)])];
          argDecls := λ _ _ _, VUndefined |}
       ArgUndefined ∅).1 !! ty = Some descs ∧
    length descs < length effects.
Proof.
  apply (exploreEffects_throw_leaves_partial
           {| effectDecls := [(AppComponent,
                               [("first"%string, ArgObj ∅); ("second"%string, ArgNull)])];
              argDecls := λ _ _ _, VUndefined |}
           ArgUndefined ∅).
  vm_compute. reflexivity.
Defined.

Lemma exploreEffects_second_call_witness :
  exploreEffects countStore (ArgObj {["markDirty"%string := VBool false]})
    (exploreEffects countStore ArgUndefined ∅).1
  = ((exploreEffects countStore ArgUndefined ∅).1, Ok (Entry <$> effectDecls countStore)).
Proof.
  apply (exploreEffects_second_call countStore ArgUndefined
           (ArgObj {["markDirty"%string := VBool false]}) ∅).
  vm_compute. reflexivity.
Defined.

End ExploreEffectsMore.

(** ** effects: what the provider array asks for and provides *)

Module ProvidersConfigMore.

Import ExploreEffects ProvidersConfig.

(** X11: whether the classes are given singly, as an array or not at all, the
    classes that the [EFFECTS] factory asks the injector for are exactly
    the classes that the same array provides, in the same order; and the
    array registers the given options, once, under [EffectOptions]. *)
Theorem effects_requests_what_it_provides (types : TypesArg) (effectOptions : jsarg) :
  requestedTypes (effects types effectOptions)
    = providedTypes (effects types effectOptions) ∧
  providedOptions (effects types effectOptions) = [effectOptions] ∧
  requestedTypes (effects types effectOptions)
    = match types with
      | TypesUndefined => []
      | OneType t => [t]
      | ManyTypes ts => ts
      end.
Proof.
  unfold requestedTypes, providedTypes, providedOptions, effects.
  destruct types as [|t|ts]; simpl; rewrite ?app_nil_r; done.
Qed.

End ProvidersConfigMore.

(** ** RenderFactoryObserver: wiring, teardown, unsubscription *)

Module ProvidersMore.

Import Providers Wiring ProvidersSpec.

Section Observer.

Context {Host Element Node : Type}.

Implicit Types (w : World Host Element Node) (p s : nat) (subs : list nat).
Implicit Types (ops : list (Op Host Element Node)).

(** *** The wiring is kept *)

Lemma Wired_ext w w' :
  observers w' = observers w → inner w' = inner w →
  length (rendered w) ≤ length (rendered w') → isStopped w' = isStopped w →
  Wired w → Wired w'.
Proof.
  intros Ho Hi Hr Hs [Hnd Hconn Hne Hk Hst].
  split; rewrite ?Ho, ?Hi, ?Hs; try done.
  intros p Hp. specialize (Hk p Hp). lia.
Qed.

Lemma Wired_constructor (rf : RendererFactory2 Host) (h : Host) :
  Wired (constructor rf h : World Host Element Node).
Proof.
  split; simpl; try done.
  - apply NoDup_nil_2.
  - intros p. rewrite lookup_empty, elem_of_nil. split; [done|]. by intros [? ?].
  - intros p [? Hp]. by rewrite lookup_empty in Hp.
Qed.

Lemma Wired_disconnect w p :
  Wired w →
  Wired (set_observers (remove p (observers w)) (set_inner (delete p (inner w)) w)).
Proof.
  intros [Hnd Hconn Hne Hk Hst]. split; simpl.
  - by apply NoDup_remove.
  - intros q. rewrite elem_of_remove, Hconn. split.
    + intros [Hq [x Hx]]. exists x. by rewrite lookup_delete_ne.
    + intros [x (Hq & Hx)%lookup_delete_Some]. split; [done|by eexists].
  - intros q subs (_ & Hq)%lookup_delete_Some. eauto.
  - intros q [x (_ & Hq)%lookup_delete_Some]. apply Hk. by eexists.
  - intros Hs. by rewrite (Hst Hs).
Qed.

Lemma Wired_resubscribe w p subs subs' :
  inner w !! p = Some subs → subs' ≠ [] →
  Wired w → Wired (set_inner (<[p := subs']> (inner w)) w).
Proof.
  intros Hp Hne' [Hnd Hconn Hne Hk Hst]. split; simpl; try done.
  - intros q. rewrite Hconn, lookup_insert. case_decide; [subst q|done].
    split; intros _; by eexists.
  - intros q sq. rewrite lookup_insert. case_decide; [|by eauto]. by intros [= <-].
  - intros q. rewrite lookup_insert. case_decide; [subst q|by eauto].
    intros _. apply Hk. by eexists.
Qed.

Lemma Wired_subscribe p w : Wired w → Wired (subscribe p w).
Proof.
  intros HW. unfold subscribe.
  destruct (rendered w !! p) as [er|] eqn:Her; [|done]. simpl.
  destruct (inner w !! p) as [subs|] eqn:Hp.
  - apply (Wired_resubscribe (set_nextSubscriber _ w) p subs); [done| |].
    + by destruct subs.
    + revert HW. by apply Wired_ext.
  - destruct (isStopped w) eqn:Hstop.
    + revert HW. by apply Wired_ext.
    + destruct HW as [Hnd Hconn Hne Hk Hst]. split; simpl.
      * apply NoDup_app. split_and!; [done| |apply NoDup_singleton].
        intros q Hq ->%list_elem_of_singleton.
        apply Hconn in Hq as [x Hx]. congruence.
      * intros q. rewrite elem_of_app, list_elem_of_singleton, Hconn, lookup_insert.
        case_decide; [subst q|].
        -- split; [by eexists|by right].
        -- split; [by intros [?|?]|by left].
      * intros q sq. rewrite lookup_insert. case_decide; [|by eauto]. by intros [= <-].
      * intros q. rewrite lookup_insert. case_decide; [subst q|by eauto].
        intros _. by eapply lookup_lt_Some.
      * by rewrite Hstop.
Qed.

Lemma Wired_unsubscribe p s w : Wired w → Wired (unsubscribe p s w).
Proof.
  intros HW. unfold unsubscribe.
  destruct (inner w !! p) as [subs|] eqn:Hp; [|done].
  case_decide; [|done].
  destruct (remove s subs) as [|s' subs'] eqn:Hrem.
  - by apply Wired_disconnect.
  - by apply (Wired_resubscribe w p subs).
Qed.

Lemma Wired_deliver_next w p : Wired w → Wired (deliver_next w p).
Proof.
  intros HW. unfold deliver_next.
  destruct (rendered w !! p) as [er|]; [|done].
  destruct (inner w !! p) as [subs|]; [|done].
  destruct (attached (host w) er); [|done].
  apply (Wired_ext (set_observers (remove p (observers w))
                      (set_inner (delete p (inner w)) w))); try done.
  by apply Wired_disconnect.
Qed.

Lemma Wired_foldl_deliver_next (l : list nat) w :
  Wired w → Wired (foldl deliver_next w l).
Proof.
  revert w. induction l as [|p l IH]; intros w HW; [done|].
  simpl. by apply IH, Wired_deliver_next.
Qed.

Lemma Wired_installedEnd w : Wired w → Wired (outcome (installedEnd w)).
Proof.
  intros HW. unfold installedEnd. simpl.
  destruct (origEndFn w (host w)) as [h|h]; simpl.
  2:{ revert HW. by apply Wired_ext. }
  destruct (0 <? _); simpl.
  2:{ revert HW. by apply Wired_ext. }
  unfold subject_next. simpl. destruct (isStopped w) eqn:Hst.
  { revert HW. by apply Wired_ext. }
  apply Wired_foldl_deliver_next. revert HW. by apply Wired_ext.
Qed.

Lemma foldl_deliver_complete_rendered (l : list nat) w :
  rendered (foldl deliver_complete w l) = rendered w.
Proof.
  revert w. induction l as [|p l IH]; intros w; [done|].
  simpl. rewrite IH. unfold deliver_complete. by destruct (inner w !! p).
Qed.

Lemma ngOnDestroy_rendered w : rendered (ngOnDestroy w) = rendered w.
Proof.
  unfold ngOnDestroy, subject_complete. simpl.
  by rewrite foldl_deliver_complete_rendered.
Qed.

Lemma ngOnDestroy_disconnects w p :
  Wired w → inner (ngOnDestroy w) !! p = None.
Proof.
  intros HW.
  destruct (ngOnDestroy_frame w) as (_ & _ & _ & _ & _ & Hsub & Hnone & _).
  destruct (inner (ngOnDestroy w) !! p) as [subs|] eqn:Hp; [|done].
  assert (inner w !! p = Some subs) as Hp' by (by eapply lookup_weaken).
  rewrite Hnone in Hp; [done|].
  apply (wired_connected _ HW). by eexists.
Qed.

Lemma Wired_ngOnDestroy w : Wired w → Wired (ngOnDestroy w).
Proof.
  intros HW.
  destruct (ngOnDestroy_frame w) as (_ & _ & Hst & Hobs & _).
  pose proof (ngOnDestroy_disconnects w) as Hnone.
  split; rewrite ?Hobs; try done.
  - apply NoDup_nil_2.
  - intros p. rewrite (Hnone p HW), elem_of_nil. split; [done|]. by intros [? ?].
  - intros p subs. by rewrite (Hnone p HW).
  - intros p [? Hp]. by rewrite (Hnone p HW) in Hp.
Qed.

Lemma Wired_step w (op : Op Host Element Node) : Wired w → Wired (step w op).
Proof.
  intros HW. destruct op as [el r|p|p s| | |g]; simpl.
  - revert HW. apply Wired_ext; try done. simpl. rewrite length_app. lia.
  - by apply Wired_subscribe.
  - by apply Wired_unsubscribe.
  - by apply Wired_installedEnd.
  - by apply Wired_ngOnDestroy.
  - revert HW. by apply Wired_ext.
Qed.

Lemma Wired_run ops w : Wired w → Wired (run w ops).
Proof.
  revert w. induction ops as [|op ops IH]; intros w HW; [done|].
  simpl. by apply IH, Wired_step.
Qed.

(** X12: over any run of a constructed observer, [observers] lists each
    connected observable exactly once, an observable is connected exactly
    when it has a subscriber, and a stopped subject has no observer: the
    guard [observers.length > 0] of the installed hook holds exactly when
    some subscriber is waiting. *)
Theorem observers_are_the_waiting_observables
    (rf : RendererFactory2 Host) (h0 : Host) ops :
  let w : World Host Element Node := run (constructor rf h0) ops in
  NoDup (observers w) ∧
  (∀ p, p ∈ observers w ↔ ∃ subs, inner w !! p = Some subs ∧ subs ≠ []) ∧
  ((0 <? length (observers w)) = true ↔
     ∃ p subs s, inner w !! p = Some subs ∧ s ∈ subs) ∧
  (isStopped w = true → observers w = [] ∧ inner w = ∅).
Proof.
  intros w.
  assert (Wired w) as HW by apply Wired_run, Wired_constructor.
  destruct HW as [Hnd Hconn Hne Hk Hst].
  assert (∀ p, p ∈ observers w ↔ ∃ subs, inner w !! p = Some subs ∧ subs ≠ []) as Hiff.
  { intros p. rewrite Hconn. split.
    - intros [subs Hp]. exists subs. split; [done|by eapply Hne].
    - intros (subs & Hp & _). by eexists. }
  split_and!; try done.
  - rewrite Nat.ltb_lt. split.
    + intros Hlen. destruct (observers w) as [|p l] eqn:Hobs; [simpl in Hlen; lia|].
      destruct (proj1 (Hiff p)) as (subs & Hp & Hsubs); [left|].
      destruct subs as [|s subs]; [done|]. exists p, (s :: subs), s.
      split; [done|left].
    + intros (p & subs & s & Hp & Hs).
      assert (p ∈ observers w) as Hin by (apply Hconn; by eexists).
      destruct (observers w); [by apply elem_of_nil in Hin|simpl; lia].
  - intros Hstop. split; [by apply Hst|].
    apply map_eq. intros p. rewrite lookup_empty.
    destruct (inner w !! p) as [subs|] eqn:Hp; [|done].
    assert (p ∈ observers w) as Hin by (apply Hconn; by eexists).
    rewrite (Hst Hstop) in Hin. by apply elem_of_nil in Hin.
Qed.

(** *** Teardown *)

Lemma deliver_complete_other w p q :
  q ≠ p → inner (deliver_complete w q) !! p = inner w !! p.
Proof.
  intros Hne. unfold deliver_complete.
  destruct (inner w !! q); [|done]. simpl. by rewrite lookup_delete_ne.
Qed.

Lemma foldl_deliver_complete_completes (l : list nat) w p subs :
  p ∈ l → inner w !! p = Some subs →
  ∃ t1 t2,
    log (foldl deliver_complete w l) = log w ++ t1 ++ (Completed <$> subs) ++ t2.
Proof.
  revert w. induction l as [|q l IH]; intros w Hin Hp.
  { by apply elem_of_nil in Hin. }
  simpl. destruct (decide (q = p)) as [->|Hne].
  - destruct (foldl_deliver_complete_frame l (deliver_complete w p))
      as (_ & _ & _ & _ & _ & _ & _ & t2 & Hlog & _).
    exists [], t2. rewrite Hlog. unfold deliver_complete. rewrite Hp. simpl.
    by rewrite <- (assoc_L (++)).
  - apply elem_of_cons in Hin as [->|Hin]; [done|].
    destruct (IH (deliver_complete w q) Hin) as (t1 & t2 & Hlog).
    { by rewrite deliver_complete_other. }
    destruct (deliver_complete_frame w q)
      as (_ & _ & _ & _ & _ & _ & _ & t0 & Hlog0 & _).
    exists (t0 ++ t1), t2. rewrite Hlog, Hlog0. by rewrite <- !(assoc_L (++)).
Qed.

(** X13: [ngOnDestroy] completes every subscriber that is waiting, notifies
    nobody, and leaves no observable connected. *)
Theorem ngOnDestroy_completes_subscribers
    (rf : RendererFactory2 Host) (h0 : Host) ops :
  let w : World Host Element Node := run (constructor rf h0) ops in
  (∀ p subs s, inner w !! p = Some subs → s ∈ subs →
     Completed s ∈ since w (ngOnDestroy w)) ∧
  notified (since w (ngOnDestroy w)) = [] ∧
  inner (ngOnDestroy w) = ∅ ∧
  observers (ngOnDestroy w) = [].
Proof.
  intros w.
  assert (Wired w) as HW by apply Wired_run, Wired_constructor.
  destruct (ngOnDestroy_frame w) as (_ & _ & _ & Hobs & _ & _ & _ & tail & Hlog & Hq).
  rewrite (since_app _ _ _ Hlog).
  split_and!; try done.
  - intros p subs s Hp Hs.
    assert (p ∈ observers w) as Hin by (apply (wired_connected _ HW); by eexists).
    destruct (foldl_deliver_complete_completes (observers w) (set_isStopped true w) p subs)
      as (t1 & t2 & Hlog'); [done|done|].
    assert (log (ngOnDestroy w) = log w ++ t1 ++ (Completed <$> subs) ++ t2) as Hlog''.
    { exact Hlog'. }
    rewrite Hlog in Hlog''. apply app_inv_head in Hlog''. rewrite Hlog''.
    rewrite !elem_of_app, list_elem_of_fmap. right; left. by exists s.
  - by apply notified_quiet.
  - apply map_eq. intros p. rewrite lookup_empty. by apply ngOnDestroy_disconnects.
Qed.

(** X14: calling [ngOnDestroy] a second time changes nothing. *)
Theorem ngOnDestroy_idempotent w :
  ngOnDestroy (ngOnDestroy w) = ngOnDestroy w.
Proof.
  destruct (ngOnDestroy_frame w) as (_ & _ & Hst & Hobs & _).
  unfold ngOnDestroy at 1. unfold subject_complete. rewrite Hobs. simpl.
  rewrite <- Hobs at 1. rewrite <- Hst at 1.
  by destruct (ngOnDestroy w).
Qed.

Lemma run_stays_stopped ops w :
  isStopped w = true → observers w = [] →
  isStopped (run w ops) = true ∧ observers (run w ops) = [].
Proof.
  revert w. induction ops as [|op ops IH]; intros w Hst Hobs; [done|].
  simpl. destruct (step_stopped w op Hst Hobs) as (Hst' & Hobs' & _).
  by apply IH.
Qed.

(** X15: once [ngOnDestroy] has been called, subscribing to an observable
    returned by [whenRendered] (before or after the teardown) completes
    the subscriber at once and connects nothing. *)
Theorem subscribe_after_ngOnDestroy
    (rf : RendererFactory2 Host) (h0 : Host) ops1 ops2 p :
  let w : World Host Element Node :=
    run (ngOnDestroy (run (constructor rf h0) ops1)) ops2 in
  is_Some (rendered w !! p) →
  log (subscribe p w) = log w ++ [Completed (nextSubscriber w)] ∧
  observers (subscribe p w) = [] ∧
  inner (subscribe p w) = ∅.
Proof.
  intros w [er Her].
  assert (Wired w) as HW.
  { apply Wired_run, Wired_ngOnDestroy, Wired_run, Wired_constructor. }
  destruct (ngOnDestroy_frame (run (constructor rf h0) ops1))
    as (_ & _ & Hst0 & Hobs0 & _).
  destruct (run_stays_stopped ops2 _ Hst0 Hobs0) as [Hst Hobs]. fold w in Hst, Hobs.
  assert (inner w = ∅) as Hinner.
  { apply map_eq. intros q. rewrite lookup_empty.
    destruct (inner w !! q) as [subs|] eqn:Hq; [|done].
    assert (q ∈ observers w) as Hin by (apply (wired_connected _ HW); by eexists).
    rewrite Hobs in Hin. by apply elem_of_nil in Hin. }
  unfold subscribe. rewrite Her. simpl. rewrite Hinner, lookup_empty, Hst. done.
Qed.

(** *** Unsubscription *)

Lemma dormant_ext s w w' :
  nextSubscriber w ≤ nextSubscriber w' →
  notified (log w') = notified (log w) →
  inner w' ⊆ inner w →
  dormant s w → dormant s w'.
Proof.
  intros Hn Hl Hi (Hlt & Hnot & Hsub). split_and!.
  - lia.
  - by rewrite Hl.
  - intros p subs Hp. eapply Hsub. by eapply lookup_weaken.
Qed.

Lemma dormant_subscribe s p w : dormant s w → dormant s (subscribe p w).
Proof.
  intros Hd. unfold subscribe.
  destruct (rendered w !! p); [|done]. simpl.
  destruct Hd as (Hlt & Hnot & Hsub).
  destruct (inner w !! p) as [subs|] eqn:Hp.
  - split_and!; simpl; [lia|done|].
    intros q sq. rewrite lookup_insert. case_decide; [|by eauto].
    intros [= <-]. rewrite elem_of_app, list_elem_of_singleton.
    intros [Hs| ->]; [by eapply Hsub|lia].
  - destruct (isStopped w).
    + split_and!; simpl; [lia| |done].
      by rewrite notified_app, app_nil_r.
    + split_and!; simpl; [lia|done|].
      intros q sq. rewrite lookup_insert. case_decide; [|by eauto].
      intros [= <-] ->%list_elem_of_singleton. lia.
Qed.

Lemma dormant_unsubscribe s p s' w : dormant s w → dormant s (unsubscribe p s' w).
Proof.
  intros Hd. unfold unsubscribe.
  destruct (inner w !! p) as [subs|] eqn:Hp; [|done].
  case_decide; [|done].
  destruct Hd as (Hlt & Hnot & Hsub).
  destruct (remove s' subs) as [|x subs'] eqn:Hrem.
  - split_and!; simpl; [done|done|].
    intros q sq (_ & Hq)%lookup_delete_Some. eauto.
  - split_and!; simpl; [done|done|].
    intros q sq. rewrite lookup_insert. case_decide; [|by eauto].
    intros [= <-]. rewrite <- Hrem, elem_of_remove. intros [_ Hs]. by eapply Hsub.
Qed.

Lemma dormant_deliver_next s w p : dormant s w → dormant s (deliver_next w p).
Proof.
  intros Hd. unfold deliver_next.
  destruct (rendered w !! p) as [er|]; [|done].
  destruct (inner w !! p) as [subs|] eqn:Hp; [|done].
  destruct (attached (host w) er); [|done].
  destruct Hd as (Hlt & Hnot & Hsub). split_and!; simpl; [done| |].
  - rewrite !notified_app, notified_Notify, notified_Completed, app_nil_r.
    rewrite elem_of_app. intros [?|?]; [done|]. by eapply Hsub.
  - intros q sq (_ & Hq)%lookup_delete_Some. eauto.
Qed.

Lemma dormant_foldl_deliver_next s (l : list nat) w :
  dormant s w → dormant s (foldl deliver_next w l).
Proof.
  revert w. induction l as [|p l IH]; intros w Hd; [done|].
  simpl. by apply IH, dormant_deliver_next.
Qed.

Lemma dormant_emit_quiet s (es : list Event) w :
  notified es = [] → dormant s w → dormant s (emit es w).
Proof.
  intros Hes. apply dormant_ext; try done.
  simpl. by rewrite notified_app, Hes, app_nil_r.
Qed.

Lemma dormant_step s w (op : Op Host Element Node) :
  dormant s w → dormant s (step w op).
Proof.
  intros Hd. destruct op as [el r|p|p s'| | |g]; simpl.
  - revert Hd. by apply dormant_ext.
  - by apply dormant_subscribe.
  - by apply dormant_unsubscribe.
  - unfold installedEnd. simpl.
    assert (dormant s (emit [OrigEnd] w)) as Hd' by (by apply dormant_emit_quiet).
    destruct (origEndFn w (host w)) as [h|h]; simpl.
    2:{ revert Hd'. by apply dormant_ext. }
    assert (dormant s (set_host h (emit [OrigEnd] w))) as Hd''.
    { revert Hd'. by apply dormant_ext. }
    destruct (0 <? _); simpl; [|done].
    unfold subject_next.
    assert (dormant s (emit [SubjectNext] (set_host h (emit [OrigEnd] w)))) as Hd3.
    { by apply dormant_emit_quiet. }
    destruct (isStopped _); [done|].
    by apply dormant_foldl_deliver_next.
  - destruct (ngOnDestroy_frame w) as (_ & _ & _ & _ & Hn & Hsub & _ & tail & Hlog & Hq).
    revert Hd. apply dormant_ext; [lia| |done].
    by rewrite Hlog, notified_app, (notified_quiet _ Hq), app_nil_r.
  - revert Hd. by apply dormant_ext.
Qed.

Lemma dormant_run s ops w : dormant s w → dormant s (run w ops).
Proof.
  revert w. induction ops as [|op ops IH]; intros w Hd; [done|].
  simpl. by apply IH, dormant_step.
Qed.

Lemma notifications_zero (l : list Event) s :
  s ∉ notified l → notifications s l = 0.
Proof.
  intros Hs. unfold notifications.
  destruct (filter (λ x, x = s) (notified l)) as [|y rest] eqn:Hf; [done|].
  assert (y ∈ filter (λ x, x = s) (notified l)) as Hy by (rewrite Hf; left).
  apply list_elem_of_filter in Hy as [-> Hy]. done.
Qed.

(** X16: a subscriber that unsubscribes before it has been notified is never
    notified afterwards, whatever happens next. *)
Theorem unsubscribed_never_notified
    (rf : RendererFactory2 Host) (h0 : Host) ops p subs s ops' :
  let w : World Host Element Node := run (constructor rf h0) ops in
  inner w !! p = Some subs →
  s ∈ subs →
  notifications s (log (run (unsubscribe p s w) ops')) = 0.
Proof.
  intros w Hp Hs.
  assert (Inv w) as [Hfresh Hun Hnd Hdis Honce Hold Hconn].
  { apply Inv_run, Inv_constructor. }
  apply notifications_zero.
  apply (dormant_run s ops' (unsubscribe p s w)).
  split_and!.
  - assert (nextSubscriber (unsubscribe p s w) = nextSubscriber w) as ->.
    { unfold unsubscribe. rewrite Hp. rewrite decide_True by done.
      by destruct (remove s subs). }
    by eapply Hfresh.
  - assert (log (unsubscribe p s w) = log w) as ->.
    { unfold unsubscribe. rewrite Hp. rewrite decide_True by done.
      by destruct (remove s subs). }
    by eapply Hun.
  - intros q sq. unfold unsubscribe. rewrite Hp. rewrite decide_True by done.
    destruct (remove s subs) as [|x subs'] eqn:Hrem; simpl.
    + intros (Hne & Hq)%lookup_delete_Some Hin. apply Hne. symmetry. eauto.
    + rewrite lookup_insert. case_decide as Hpq.
      * intros [= <-]. rewrite <- Hrem, elem_of_remove. by intros [? _].
      * intros Hq Hin. apply Hpq. eauto.
Qed.

(** *** A pass that completes while the element is detached *)

Lemma deliver_next_observers w p q :
  q ≠ p → q ∈ observers w → q ∈ observers (deliver_next w p).
Proof.
  intros Hne Hq. unfold deliver_next.
  destruct (rendered w !! p) as [er|]; [|done].
  destruct (inner w !! p) as [subs|]; [|done].
  destruct (attached (host w) er); [|done].
  simpl. by apply elem_of_remove.
Qed.

Lemma foldl_deliver_next_detached (l : list nat) w p er :
  rendered w !! p = Some er → attached (host w) er = false →
  inner (foldl deliver_next w l) !! p = inner w !! p ∧
  (p ∈ observers w → p ∈ observers (foldl deliver_next w l)) ∧
  ∀ s, s ∈ notified (log (foldl deliver_next w l)) →
       s ∈ notified (log w) ∨ ∃ q sq, q ≠ p ∧ inner w !! q = Some sq ∧ s ∈ sq.
Proof.
  revert w. induction l as [|q l IH]; intros w Her Hat; [by auto|].
  simpl. destruct (decide (q = p)) as [->|Hne].
  - assert (deliver_next w p = w) as ->; [|by apply IH].
    unfold deliver_next. rewrite Her, Hat. by destruct (inner w !! p).
  - destruct (deliver_next_frame w q) as (Hh & Hr & _ & _ & Hsub & Hother).
    destruct (IH (deliver_next w q)) as (Hin & Hobs & Hnot).
    { by rewrite Hr. }
    { by rewrite Hh. }
    split_and!.
    + by rewrite Hin, Hother.
    + intros Hp. by apply Hobs, deliver_next_observers.
    + intros s Hs. destruct (Hnot s Hs) as [Hold|(q' & sq & Hq' & Hsq & Hs')].
      * destruct (deliver_next_log w q) as (tail & Hlog & _ & Hn).
        rewrite Hlog, notified_app, elem_of_app in Hold.
        destruct Hold as [?|Hnew]; [by left|].
        apply elem_of_notified in Hnew.
        destruct (Hn s Hnew) as (er' & subs' & _ & Hq & Hin' & _).
        right. by exists q, subs'.
      * right. exists q', sq. split_and!; try done. by eapply lookup_weaken.
Qed.

(** X17: when the installed hook is called while the element of an observable
    has no parent, the subscribers of that observable are not notified
    and stay subscribed, and the observable stays connected to the
    subject: they will be considered again at the next call. *)
Theorem detached_element_keeps_waiting
    (rf : RendererFactory2 Host) (h0 : Host) ops p el r subs :
  let w : World Host Element Node := run (constructor rf h0) ops in
  let w' := outcome (installedEnd w) in
  rendered w !! p = Some (el, r) →
  inner w !! p = Some subs →
  parentNode r (host w') el = None →
  inner w' !! p = Some subs ∧
  p ∈ observers w' ∧
  ∀ s, s ∈ subs → notifications s (log w') = 0.
Proof.
  intros w w' Her Hp Hdet.
  assert (Inv w) as [Hfresh Hun Hnd Hdis Honce Hold Hconn].
  { apply Inv_run, Inv_constructor. }
  destruct (Hconn p) as [Hin Hst]; [by eexists|].
  assert (inner w' !! p = Some subs ∧ p ∈ observers w' ∧
          ∀ s, s ∈ notified (log w') →
               s ∈ notified (log w) ∨ ∃ q sq, q ≠ p ∧ inner w !! q = Some sq ∧ s ∈ sq)
    as (Hp' & Hin' & Hnot).
  { subst w'. revert Hdet. unfold installedEnd. simpl.
    destruct (origEndFn w (host w)) as [h|h]; simpl.
    2:{ intros _. split_and!; [done|done|].
        intros s. rewrite notified_app, app_nil_r. by left. }
    destruct (0 <? length (observers w)); simpl.
    2:{ intros _. split_and!; [done|done|].
        intros s. rewrite notified_app, app_nil_r. by left. }
    unfold subject_next. simpl. rewrite Hst.
    set (w1 := emit [SubjectNext] (set_host h (emit [OrigEnd] w))).
    destruct (foldl_deliver_next_frame (observers w) w1) as (-> & _).
    simpl. intros Hdet.
    destruct (foldl_deliver_next_detached (observers w) w1 p (el, r)) as (Hi & Ho & Hn).
    { done. }
    { unfold attached. simpl. by rewrite Hdet. }
    split_and!; [by rewrite Hi|by apply Ho|].
    intros s Hs. destruct (Hn s Hs) as [Hold'|?]; [|by right].
    left. revert Hold'. simpl. by rewrite !notified_app, !app_nil_r. }
  split_and!; [done|done|].
  intros s Hs. apply notifications_zero. intros Hnew.
  destruct (Hnot s Hnew) as [Hold'|(q & sq & Hne & Hq & Hsq)].
  - by eapply Hun.
  - apply Hne. eauto.
Qed.

(** *** Calls of the original hook *)

Lemma origEndCalls_app (l1 l2 : list Event) :
  origEndCalls (l1 ++ l2) = origEndCalls l1 + origEndCalls l2.
Proof. unfold origEndCalls. by rewrite filter_app, length_app. Qed.

Lemma origEndCalls_delivery (l : list Event) :
  Forall (λ e, delivery e = true) l → origEndCalls l = 0.
Proof.
  unfold origEndCalls. induction 1 as [|e l He _ IH]; [done|].
  rewrite filter_cons. case_decide as Heq; [by subst e|done].
Qed.

Lemma deliver_complete_origEndCalls w p :
  origEndCalls (log (deliver_complete w p)) = origEndCalls (log w).
Proof.
  unfold deliver_complete. destruct (inner w !! p) as [subs|]; [|done].
  simpl. rewrite origEndCalls_app, (origEndCalls_delivery (Completed <$> subs)).
  - apply Nat.add_0_r.
  - by apply Forall_delivery_fmap.
Qed.

Lemma foldl_deliver_complete_origEndCalls (l : list nat) w :
  origEndCalls (log (foldl deliver_complete w l)) = origEndCalls (log w).
Proof.
  revert w. induction l as [|p l IH]; intros w; [done|].
  simpl. by rewrite IH, deliver_complete_origEndCalls.
Qed.

Lemma step_origEndCalls w (op : Op Host Element Node) :
  origEndCalls (log (step w op)) = origEndCalls (log w) + endCalls [op].
Proof.
  destruct op as [el r|p|p s| | |g]; simpl; rewrite ?Nat.add_0_r; try done.
  - unfold subscribe. destruct (rendered w !! p); [|done]. simpl.
    destruct (inner w !! p); [done|]. destruct (isStopped w); [|done].
    simpl. by rewrite origEndCalls_app, Nat.add_0_r.
  - unfold unsubscribe. destruct (inner w !! p); [|done].
    case_decide; [|done]. by destruct (remove s _).
  - destruct (installedEnd_log w) as (rest & -> & Hd & _).
    rewrite origEndCalls_app. f_equal.
    change (OrigEnd :: ?l) with ([OrigEnd] ++ l). rewrite origEndCalls_app.
    destruct (_ && _); [|done].
    change (SubjectNext :: rest) with ([SubjectNext] ++ rest).
    by rewrite origEndCalls_app, (origEndCalls_delivery _ Hd).
  - unfold ngOnDestroy, subject_complete. simpl.
    by rewrite foldl_deliver_complete_origEndCalls.
Qed.

Lemma endCalls_cons (op : Op Host Element Node) ops :
  endCalls (op :: ops) = endCalls [op] + endCalls ops.
Proof. by destruct op. Qed.

Lemma run_origEndCalls ops w :
  origEndCalls (log (run w ops)) = origEndCalls (log w) + endCalls ops.
Proof.
  revert w. induction ops as [|op ops IH]; intros w; [simpl; lia|].
  simpl run. rewrite IH, step_origEndCalls, (endCalls_cons op ops). lia.
Qed.

(** X18: over any run of a constructed observer the original hook has been
    called once for each call of the installed hook, and by nothing
    else: subscribing, unsubscribing and teardown never call it. *)
Theorem original_hook_called_once_per_end
    (rf : RendererFactory2 Host) (h0 : Host) ops :
  origEndCalls (log (run (constructor rf h0 : World Host Element Node) ops))
    = endCalls ops.
Proof. by rewrite run_origEndCalls. Qed.

End Observer.

Lemma subscribe_after_ngOnDestroy_witness :
  log (subscribe 0
         (run (ngOnDestroy (run (constructor bareFactory false) twoSubscribers))
              [OpEnd]))
  = log (run (ngOnDestroy (run (constructor bareFactory false) twoSubscribers))
             [OpEnd])
    ++ [Completed
          (nextSubscriber
             (run (ngOnDestroy (run (constructor bareFactory false) twoSubscribers))
                  [OpEnd]))] ∧
  observers
    (subscribe 0
       (run (ngOnDestroy (run (constructor bareFactory false) twoSubscribers))
            [OpEnd])) = [] ∧
  inner
    (subscribe 0
       (run (ngOnDestroy (run (constructor bareFactory false) twoSubscribers))
            [OpEnd])) = ∅.
Proof.
  apply (subscribe_after_ngOnDestroy bareFactory false twoSubscribers [OpEnd] 0).
  vm_compute. by eexists.
Defined.

Lemma unsubscribed_never_notified_witness :
  notifications 0
    (log (run (unsubscribe 0 0 (run (constructor bareFactory false) twoSubscribers))
              [OpEnd; OpEnd])) = 0.
Proof.
  apply (unsubscribed_never_notified
           bareFactory false twoSubscribers 0 [0; 1] 0 [OpEnd; OpEnd]).
  - reflexivity.
  - left.
Defined.

Lemma detached_element_keeps_waiting_witness :
  inner (outcome (installedEnd
           (run (constructor bareFactory false)
                [OpWhenRendered () domRenderer; OpSubscribe 0]))) !! 0 = Some [0] ∧
  0 ∈ observers (outcome (installedEnd
           (run (constructor bareFactory false)
                [OpWhenRendered () domRenderer; OpSubscribe 0]))) ∧
  ∀ s, s ∈ [0] →
    notifications s
      (log (outcome (installedEnd
              (run (constructor bareFactory false)
                   [OpWhenRendered () domRenderer; OpSubscribe 0])))) = 0.
Proof.
  apply (detached_element_keeps_waiting bareFactory false
           [OpWhenRendered () domRenderer; OpSubscribe 0] 0 () domRenderer [0]).
  - reflexivity.
  - reflexivity.
  - reflexivity.
Defined.

End ProvidersMore.
